(** * simple-encryption-util: a shallow embedding of [src/lib.ts]

    The library wraps Node's [crypto] module: [prepareKey] normalises a
    password to 32 bytes, [encrypt]/[encryptAsync] emit [iv || ciphertext]
    under AES-256-CBC, [decrypt]/[decryptAsync] split and decipher such an
    envelope, and [askQuestion] is a yes/no prompt.

    Buffers are lists of bytes.  What [lib.ts] leaves to the platform is
    written out from the platform's behaviour: the checks of
    [createCipheriv], the [update]/[final] staging of the cipher object with
    its CBC chaining and block padding, the stream interface used by the
    asynchronous variants, the UTF-8 conversion of string input, and the
    [default] option of the [read] package.  The definitions and the
    general lemmas take the block cipher as a parameter ([AES256]) together
    with the two facts they need about it; [aes256] is AES-256 itself, for
    which these facts are proved and on which the definitions are run. *)

From Stdlib Require Import String Ascii Bool NArith ZArith Arith Lia ZifyNat Btauto List.
From Stdlib Require Import Strings.Byte DecimalString.
Import ListNotations.

(** ** Bytes and buffers *)

Definition bytes := list byte.

(** Bitwise exclusive-or of two bytes. *)
Definition byte_xor (a b : byte) : byte :=
  let '(a0, (a1, (a2, (a3, (a4, (a5, (a6, a7))))))) := Byte.to_bits a in
  let '(b0, (b1, (b2, (b3, (b4, (b5, (b6, b7))))))) := Byte.to_bits b in
  Byte.of_bits
    (xorb a0 b0, (xorb a1 b1, (xorb a2 b2, (xorb a3 b3,
    (xorb a4 b4, (xorb a5 b5, (xorb a6 b6, xorb a7 b7))))))).

(** Exclusive-or of two buffers, position by position (up to the shorter). *)
Fixpoint xor_bytes (a b : bytes) : bytes :=
  match a, b with
  | x :: a', y :: b' => byte_xor x y :: xor_bytes a' b'
  | _, _ => []
  end.

(** The byte holding [n]; only used for [1 <= n <= 16]. *)
Definition byte_of_nat (n : nat) : byte :=
  match Byte.of_nat n with
  | Some b => b
  | None => x00
  end.

(** The operations of Node's [Buffer] that [lib.ts] calls. *)
Module Buffer.

(** [Buffer.alloc(n)]: [n] zero bytes. *)
Definition alloc (n : nat) : bytes := repeat x00 n.

(** [buf.fill(v)]: every position overwritten with [v]. *)
Definition fill (buf : bytes) (v : byte) : bytes := map (fun _ => v) buf.

(** [buf.subarray(start, stop)]: both indices are clamped to the length,
    and the result is empty when [stop <= start]. *)
Definition subarray (buf : bytes) (start stop : nat) : bytes :=
  firstn (stop - start) (skipn start buf).

(** [buf.subarray(start)]: from [start] (clamped) to the end. *)
Definition subarray_from (buf : bytes) (start : nat) : bytes :=
  skipn start buf.

(** [Buffer.concat(list)]. *)
Definition concat (bufs : list bytes) : bytes := List.concat bufs.

End Buffer.

(** ** Module constants *)

Definition ALGORITHM : string := "aes-256-cbc"%string.
Definition IV_SIZE : nat := 16.
Definition KEY_SIZE : nat := 32.

(** ** [prepareKey] *)

Definition prepareKey (key : bytes) : bytes :=
  if KEY_SIZE <=? length key then
    Buffer.subarray key 0 KEY_SIZE
  else
    let zeros := Buffer.fill (Buffer.alloc (KEY_SIZE - length key)) x00 in
    Buffer.concat [key; zeros].

(** ** JavaScript strings

    A JavaScript string is a sequence of UTF-16 code units. *)

Definition jsstring := list N.

(** An ASCII literal as a JavaScript string. *)
Fixpoint js (s : string) : jsstring :=
  match s with
  | EmptyString => []
  | String c s' => N_of_ascii c :: js s'
  end.

Definition jsstring_eqb (a b : jsstring) : bool :=
  if list_eq_dec N.eq_dec a b then true else false.

Definition byte_of_N (n : N) : byte :=
  match Byte.of_N n with
  | Some b => b
  | None => x00
  end.

Definition is_high_surrogate (u : N) : bool := ((0xD800 <=? u) && (u <=? 0xDBFF))%N.
Definition is_low_surrogate (u : N) : bool := ((0xDC00 <=? u) && (u <=? 0xDFFF))%N.

(** The UTF-8 encoding of one code point. *)
Definition utf8_code_point (c : N) : bytes :=
  (if c <? 0x80 then [byte_of_N c]
   else if c <? 0x800 then
     [byte_of_N (0xC0 + c / 64); byte_of_N (0x80 + c mod 64)]
   else if c <? 0x10000 then
     [byte_of_N (0xE0 + c / 4096); byte_of_N (0x80 + (c / 64) mod 64);
      byte_of_N (0x80 + c mod 64)]
   else
     [byte_of_N (0xF0 + (c / 262144) mod 8); byte_of_N (0x80 + (c / 4096) mod 64);
      byte_of_N (0x80 + (c / 64) mod 64); byte_of_N (0x80 + c mod 64)])%N.

(** [Buffer.from(s, "utf8")]: surrogate pairs are combined, and a surrogate
    that is not part of a pair is written as U+FFFD. *)
Fixpoint utf8_bytes (s : jsstring) : bytes :=
  match s with
  | [] => []
  | u :: rest =>
      if is_high_surrogate u then
        match rest with
        | v :: rest' =>
            if is_low_surrogate v then
              utf8_code_point (0x10000 + (u - 0xD800) * 1024 + (v - 0xDC00))%N
                ++ utf8_bytes rest'
            else utf8_code_point 0xFFFD%N ++ utf8_bytes rest
        | [] => utf8_code_point 0xFFFD%N
        end
      else if is_low_surrogate u then utf8_code_point 0xFFFD%N ++ utf8_bytes rest
      else utf8_code_point u ++ utf8_bytes rest
  end.

(** The [string | Buffer] argument of [encrypt] and [encryptAsync]. *)
Inductive Data : Type :=
  | DataString (s : jsstring)
  | DataBuffer (b : bytes).

(** What the cipher object reads from a [string | Buffer]: [cipher.update]
    without an input encoding, and [cipher.write] with the stream's default
    encoding, both take a string as UTF-8. *)
Definition data_bytes (d : Data) : bytes :=
  match d with
  | DataString s => utf8_bytes s
  | DataBuffer b => b
  end.

(** ** Errors *)

(** The exceptions of Node's [crypto] that the cipher calls of [lib.ts] can
    raise. *)
Inductive crypto_error : Type :=
  | ERR_CRYPTO_UNKNOWN_CIPHER
  | ERR_CRYPTO_INVALID_IV
  | ERR_CRYPTO_INVALID_KEYLEN
  | ERR_OSSL_WRONG_FINAL_BLOCK_LENGTH
  | ERR_OSSL_BAD_DECRYPT.

Inductive result (A : Type) : Type :=
  | Ok (a : A)
  | Err (e : crypto_error).

Arguments Ok {A} a.
Arguments Err {A} e.

Definition bind {A B : Type} (r : result A) (k : A -> result B) : result B :=
  match r with
  | Ok a => k a
  | Err e => Err e
  end.

Notation "x <- r ;; k" := (bind r (fun x => k))
  (at level 61, r at next level, right associativity).

(** ** The block cipher

    A cipher on one 16-byte block under a 32-byte key, in both directions.
    Node delegates it to OpenSSL; [aes256] below is the instance in use. *)
Class AES256 : Type := {
  aes_encrypt_block : bytes -> bytes -> bytes;
  aes_decrypt_block : bytes -> bytes -> bytes
}.

Definition BLOCK_SIZE : nat := 16.

(** ** The cipher object of [crypto.createCipheriv] / [createDecipheriv]

    [cipher_key] is the key, [chain] the CBC chaining value (the IV, then the
    last ciphertext block), [pending] the input bytes not yet processed. *)
Record Cipher : Type := {
  cipher_key : bytes;
  chain : bytes;
  pending : bytes
}.

Section CipherObject.

Context {aes : AES256}.

(** [n] blocks of CBC encryption: each plaintext block is xor-ed with the
    chaining value and encrypted.  Returns the output and the new chaining
    value. *)
Fixpoint cbc_encrypt_loop (n : nat) (key chaining data : bytes) : bytes * bytes :=
  match n with
  | O => ([], chaining)
  | S n' =>
      let c := aes_encrypt_block key (xor_bytes (firstn BLOCK_SIZE data) chaining) in
      let '(out, chaining') := cbc_encrypt_loop n' key c (skipn BLOCK_SIZE data) in
      (c ++ out, chaining')
  end.

(** [n] blocks of CBC decryption. *)
Fixpoint cbc_decrypt_loop (n : nat) (key chaining data : bytes) : bytes * bytes :=
  match n with
  | O => ([], chaining)
  | S n' =>
      let c := firstn BLOCK_SIZE data in
      let p := xor_bytes (aes_decrypt_block key c) chaining in
      let '(out, chaining') := cbc_decrypt_loop n' key c (skipn BLOCK_SIZE data) in
      (p ++ out, chaining')
  end.

(** The checks of [createCipheriv] and [createDecipheriv], in Node's order:
    the cipher name, the IV length, the key length.  ["aes-256-cbc"] is the
    only cipher [lib.ts] asks for and the only one described here. *)
Definition createCipheriv (algorithm : string) (key iv : bytes) : result Cipher :=
  if negb (String.eqb algorithm "aes-256-cbc") then Err ERR_CRYPTO_UNKNOWN_CIPHER
  else if negb (length iv =? IV_SIZE) then Err ERR_CRYPTO_INVALID_IV
  else if negb (length key =? KEY_SIZE) then Err ERR_CRYPTO_INVALID_KEYLEN
  else Ok {| cipher_key := key; chain := iv; pending := [] |}.

Definition createDecipheriv (algorithm : string) (key iv : bytes) : result Cipher :=
  createCipheriv algorithm key iv.

(** [cipher.update(data)]: every whole block of the pending input is
    encrypted, the rest stays pending. *)
Definition cipher_update (c : Cipher) (data : bytes) : Cipher * bytes :=
  let input := pending c ++ data in
  let n := length input / BLOCK_SIZE in
  let '(out, chaining') := cbc_encrypt_loop n (cipher_key c) (chain c) input in
  ({| cipher_key := cipher_key c; chain := chaining';
      pending := skipn (BLOCK_SIZE * n) input |}, out).

(** [cipher.final()]: the pending bytes (fewer than a block) are padded to
    a block with [k] bytes of value [k] and encrypted. *)
Definition cipher_final (c : Cipher) : result bytes :=
  let k := BLOCK_SIZE - length (pending c) in
  let padded := pending c ++ repeat (byte_of_nat k) k in
  Ok (fst (cbc_encrypt_loop 1 (cipher_key c) (chain c) padded)).

(** [decipher.update(data)]: as [cipher_update], except that when the
    input ends on a block boundary the last block is held back for
    [final], which has to remove the padding from it. *)
Definition decipher_update (c : Cipher) (data : bytes) : Cipher * bytes :=
  let input := pending c ++ data in
  let whole := length input / BLOCK_SIZE in
  let n := if length input mod BLOCK_SIZE =? 0 then whole - 1 else whole in
  let '(out, chaining') := cbc_decrypt_loop n (cipher_key c) (chain c) input in
  ({| cipher_key := cipher_key c; chain := chaining';
      pending := skipn (BLOCK_SIZE * n) input |}, out).

(** The padding check on a decrypted final block: the last byte [k] must
    be between 1 and 16 and the last [k] bytes must all be [k]. *)
Definition unpadblock (block : bytes) : result bytes :=
  let last := nth (BLOCK_SIZE - 1) block x00 in
  let k := Byte.to_nat last in
  if (k =? 0) || (BLOCK_SIZE <? k) then Err ERR_OSSL_BAD_DECRYPT
  else if forallb (Byte.eqb last) (skipn (BLOCK_SIZE - k) block)
  then Ok (firstn (BLOCK_SIZE - k) block)
  else Err ERR_OSSL_BAD_DECRYPT.

(** [decipher.final()]: exactly one block must be pending; it is
    decrypted and unpadded. *)
Definition decipher_final (c : Cipher) : result bytes :=
  if negb (length (pending c) =? BLOCK_SIZE) then Err ERR_OSSL_WRONG_FINAL_BLOCK_LENGTH
  else unpadblock (fst (cbc_decrypt_loop 1 (cipher_key c) (chain c) (pending c))).

(** ** [encrypt] and [decrypt]

    [iv] is the buffer returned by [crypto.randomBytes(IV_SIZE)]. *)
Definition encrypt (iv : bytes) (data : Data) (key : bytes) : result bytes :=
  cipher <- createCipheriv ALGORITHM (prepareKey key) iv ;;
  let '(cipher', encrypted) := cipher_update cipher (data_bytes data) in
  final <- cipher_final cipher' ;;
  Ok (Buffer.concat [iv; encrypted; final]).

Definition decrypt (encryptedData : bytes) (key : bytes) : result bytes :=
  let iv := Buffer.subarray encryptedData 0 IV_SIZE in
  let data := Buffer.subarray_from encryptedData IV_SIZE in
  decipher <- createDecipheriv ALGORITHM (prepareKey key) iv ;;
  let '(decipher', updated) := decipher_update decipher data in
  final <- decipher_final decipher' ;;
  Ok (Buffer.concat [updated; final]).

End CipherObject.

(** ** The stream interface of the cipher object

    [encryptAsync] and [decryptAsync] use the cipher as a transform stream:
    [write] passes the chunk to [update] and pushes its output, [end] calls
    [final] and pushes its output, or reports the exception of [final] as an
    ['error'] event. *)

Inductive stream_event : Type :=
  | EvData (chunk : bytes)
  | EvEnd
  | EvError (e : crypto_error).

(** [readable.push(chunk)]: an empty chunk raises no ['data'] event. *)
Definition push (chunk : bytes) : list stream_event :=
  match chunk with
  | [] => []
  | _ :: _ => [EvData chunk]
  end.

(** The chunks that [push] lets through. *)
Definition push_chunks (chunk : bytes) : list bytes :=
  match chunk with
  | [] => []
  | _ :: _ => [chunk]
  end.

(** The events of [stream.write(data); stream.end()], given the [update] and
    [final] of the cipher object behind the stream. *)
Definition write_end (update : Cipher -> bytes -> Cipher * bytes)
    (final : Cipher -> result bytes) (c : Cipher) (data : bytes) : list stream_event :=
  let '(c', out) := update c data in
  match final c' with
  | Ok last => push out ++ push last ++ [EvEnd]
  | Err e => push out ++ [EvError e]
  end.

(** A promise: pending, resolved with a value, or rejected. *)
Inductive promise (A : Type) : Type :=
  | Pending
  | Resolved (a : A)
  | Rejected (e : crypto_error).

Arguments Pending {A}.
Arguments Resolved {A} a.
Arguments Rejected {A} e.

(** The state of the promise bodies of [encryptAsync] and [decryptAsync]:
    the [buffers] array and the promise being settled. *)
Record collector : Type := {
  buffers : list bytes;
  outcome : promise bytes
}.

(** [resolve] and [reject] only act on a pending promise. *)
Definition settle (p v : promise bytes) : promise bytes :=
  match p with
  | Pending => v
  | _ => p
  end.

(** The three listeners: ['data'] appends to [buffers], ['end'] resolves
    with their concatenation, ['error'] rejects. *)
Definition on_event (st : collector) (ev : stream_event) : collector :=
  match ev with
  | EvData d => {| buffers := buffers st ++ [d]; outcome := outcome st |}
  | EvEnd =>
      {| buffers := buffers st;
         outcome := settle (outcome st) (Resolved (Buffer.concat (buffers st))) |}
  | EvError e =>
      {| buffers := buffers st; outcome := settle (outcome st) (Rejected e) |}
  end.

Definition collect (init : list bytes) (events : list stream_event) : promise bytes :=
  outcome (fold_left on_event events {| buffers := init; outcome := Pending |}).

Section Async.

Context {aes : AES256}.

(** [encryptAsync] is an [async] function: an exception of
    [createCipheriv] rejects the returned promise.  [iv] is the buffer the
    callback of [crypto.randomBytes] delivers. *)
Definition encryptAsync (iv : bytes) (data : Data) (key : bytes) : promise bytes :=
  match createCipheriv ALGORITHM (prepareKey key) iv with
  | Err e => Rejected e
  | Ok cipher =>
      collect [iv] (write_end cipher_update cipher_final cipher (data_bytes data))
  end.

(** [decryptAsync] is a plain function returning a promise: an exception
    of [createDecipheriv] is thrown to the caller ([Err]) before any
    promise exists. *)
Definition decryptAsync (encryptedData : bytes) (key : bytes) : result (promise bytes) :=
  let iv := Buffer.subarray encryptedData 0 IV_SIZE in
  let data := Buffer.subarray_from encryptedData IV_SIZE in
  decipher <- createDecipheriv ALGORITHM (prepareKey key) iv ;;
  Ok (collect [] (write_end decipher_update decipher_final decipher data)).

End Async.

(** What a caller that awaits the call of a promise-returning function
    sees: a thrown exception and a rejection both surface as the error. *)
Definition awaited {A : Type} (r : result (promise A)) : promise A :=
  match r with
  | Ok p => p
  | Err e => Rejected e
  end.

(** The promise that is already settled with the outcome of a synchronous
    call. *)
Definition settled {A : Type} (r : result A) : promise A :=
  match r with
  | Ok a => Resolved a
  | Err e => Rejected e
  end.

(** ** The prompt helper *)

(** The host's [String.prototype.toLocaleLowerCase]. *)
Class Locale : Type := {
  toLocaleLowerCase : jsstring -> jsstring
}.

(** The options [lib.ts] passes to [read]. *)
Record read_options : Type := {
  prompt : jsstring;
  default : jsstring
}.

(** The [read] package on a line typed by the user ([line], without its
    terminator): [default] is the value returned when the user enters
    nothing. *)
Definition read (options : read_options) (line : jsstring) : jsstring :=
  match line with
  | [] => default options
  | _ :: _ => line
  end.

(** [array.join(sep)]. *)
Fixpoint join (sep : jsstring) (parts : list jsstring) : jsstring :=
  match parts with
  | [] => []
  | [p] => p
  | p :: rest => p ++ sep ++ join sep rest
  end.

(** [array.includes(x)] on strings. *)
Definition includes (l : list jsstring) (x : jsstring) : bool :=
  existsb (jsstring_eqb x) l.

Definition default_yes : list jsstring := [js "yes"; js "y"].

(** The value of the optional parameter [yes]: the argument when one is
    given, and [default_yes] otherwise. *)
Definition accepted_tokens (yes_arg : option (list jsstring)) : list jsstring :=
  match yes_arg with
  | Some l => l
  | None => default_yes
  end.

Section Prompt.

Context {locale : Locale}.

(** [askQuestion(prompt, yes)], with [line] the user's reply.  The second
    argument is optional. *)
Definition askQuestion (prompt : jsstring) (yes_arg : option (list jsstring))
    (line : jsstring) : bool :=
  let yes := accepted_tokens yes_arg in
  let result := read {| prompt := prompt; default := join (js "/") yes |} line in
  includes (map toLocaleLowerCase yes) (toLocaleLowerCase result).

End Prompt.

(** ** Reference definitions for the envelope layout *)

(** Block padding of a whole message: [k] bytes of value [k], with
    [1 <= k <= 16] chosen to reach a multiple of the block size. *)
Definition pkcs_pad (m : bytes) : bytes :=
  let k := BLOCK_SIZE - length m mod BLOCK_SIZE in
  m ++ repeat (byte_of_nat k) k.

(** CBC encryption of a message made of whole blocks. *)
Definition cbc_encrypt {aes : AES256} (key iv m : bytes) : bytes :=
  fst (cbc_encrypt_loop (length m / BLOCK_SIZE) key iv m).

(** CBC decryption of a message made of whole blocks. *)
Definition cbc_decrypt {aes : AES256} (key iv c : bytes) : bytes :=
  fst (cbc_decrypt_loop (length c / BLOCK_SIZE) key iv c).

(** The ciphertext of a message [m] as [update] then [final] produce it:
    the whole blocks of [m], then the padded rest. *)
Definition staged_ciphertext {aes : AES256} (key iv m : bytes) : bytes :=
  let n := length m / BLOCK_SIZE in
  let r := cbc_encrypt_loop n key iv m in
  let rest := skipn (BLOCK_SIZE * n) m in
  let k := BLOCK_SIZE - length rest in
  fst r ++ fst (cbc_encrypt_loop 1 key (snd r) (rest ++ repeat (byte_of_nat k) k)).

(** The envelope of [data] under [key] with IV [iv]. *)
Definition envelope {aes : AES256} (iv : bytes) (data : Data) (key : bytes) : bytes :=
  iv ++ staged_ciphertext (prepareKey key) iv (data_bytes data).

(** A ciphertext made of whole blocks, at least one. *)
Definition whole_blocks (c : bytes) : bool :=
  (0 <? length c) && (length c mod BLOCK_SIZE =? 0).

(** Removal of the block padding from a whole message: the last byte [k]
    must be between 1 and 16 and the last [k] bytes must all be [k]; they
    are dropped. *)
Definition pkcs_unpad (m : bytes) : option bytes :=
  let last := nth (length m - 1) m x00 in
  let k := Byte.to_nat last in
  if (1 <=? k) && (k <=? BLOCK_SIZE) && (k <=? length m)
     && forallb (Byte.eqb last) (skipn (length m - k) m)
  then Some (firstn (length m - k) m)
  else None.

(** ** AES-256

    The block cipher behind ["aes-256-cbc"], as FIPS 197 defines it.  The
    state is the block itself: 16 bytes, column after column. *)
Module AES.

(** The substitution table. *)
Definition SBOX : bytes :=
  [
   x63; x7c; x77; x7b; xf2; x6b; x6f; xc5; x30; x01; x67; x2b; xfe; xd7; xab; x76;
   xca; x82; xc9; x7d; xfa; x59; x47; xf0; xad; xd4; xa2; xaf; x9c; xa4; x72; xc0;
   xb7; xfd; x93; x26; x36; x3f; xf7; xcc; x34; xa5; xe5; xf1; x71; xd8; x31; x15;
   x04; xc7; x23; xc3; x18; x96; x05; x9a; x07; x12; x80; xe2; xeb; x27; xb2; x75;
   x09; x83; x2c; x1a; x1b; x6e; x5a; xa0; x52; x3b; xd6; xb3; x29; xe3; x2f; x84;
   x53; xd1; x00; xed; x20; xfc; xb1; x5b; x6a; xcb; xbe; x39; x4a; x4c; x58; xcf;
   xd0; xef; xaa; xfb; x43; x4d; x33; x85; x45; xf9; x02; x7f; x50; x3c; x9f; xa8;
   x51; xa3; x40; x8f; x92; x9d; x38; xf5; xbc; xb6; xda; x21; x10; xff; xf3; xd2;
   xcd; x0c; x13; xec; x5f; x97; x44; x17; xc4; xa7; x7e; x3d; x64; x5d; x19; x73;
   x60; x81; x4f; xdc; x22; x2a; x90; x88; x46; xee; xb8; x14; xde; x5e; x0b; xdb;
   xe0; x32; x3a; x0a; x49; x06; x24; x5c; xc2; xd3; xac; x62; x91; x95; xe4; x79;
   xe7; xc8; x37; x6d; x8d; xd5; x4e; xa9; x6c; x56; xf4; xea; x65; x7a; xae; x08;
   xba; x78; x25; x2e; x1c; xa6; xb4; xc6; xe8; xdd; x74; x1f; x4b; xbd; x8b; x8a;
   x70; x3e; xb5; x66; x48; x03; xf6; x0e; x61; x35; x57; xb9; x86; xc1; x1d; x9e;
   xe1; xf8; x98; x11; x69; xd9; x8e; x94; x9b; x1e; x87; xe9; xce; x55; x28; xdf;
   x8c; xa1; x89; x0d; xbf; xe6; x42; x68; x41; x99; x2d; x0f; xb0; x54; xbb; x16
  ].

Definition all_bytes : bytes := Eval vm_compute in map byte_of_nat (seq 0 256).

Definition sbox (b : byte) : byte := nth (Byte.to_nat b) SBOX x00.

(** The inverse table, read off [SBOX]. *)
Definition INV_SBOX : bytes :=
  Eval vm_compute in
    map (fun y => match find (fun x => Byte.eqb (sbox x) y) all_bytes with
                  | Some x => x
                  | None => x00
                  end) all_bytes.

Definition inv_sbox (b : byte) : byte := nth (Byte.to_nat b) INV_SBOX x00.

(** Multiplication by [x] in GF(2^8) modulo [x^8 + x^4 + x^3 + x + 1]. *)
Definition xtime (b : byte) : byte :=
  let '(b0, (b1, (b2, (b3, (b4, (b5, (b6, b7))))))) := Byte.to_bits b in
  Byte.of_bits (b7, (xorb b0 b7, (b1, (xorb b2 b7, (xorb b3 b7, (b4, (b5, b6))))))).

Definition mul2 (b : byte) : byte := xtime b.
Definition mul3 (b : byte) : byte := byte_xor (xtime b) b.
Definition mul9 (b : byte) : byte := byte_xor (xtime (xtime (xtime b))) b.
Definition mul11 (b : byte) : byte :=
  byte_xor (xtime (xtime (xtime b))) (byte_xor (xtime b) b).
Definition mul13 (b : byte) : byte :=
  byte_xor (xtime (xtime (xtime b))) (byte_xor (xtime (xtime b)) b).
Definition mul14 (b : byte) : byte :=
  byte_xor (xtime (xtime (xtime b))) (byte_xor (xtime (xtime b)) (xtime b)).

Definition xor4 (a b c d : byte) : byte := byte_xor (byte_xor a b) (byte_xor c d).

Definition mix_column (a0 a1 a2 a3 : byte) : bytes :=
  [xor4 (mul2 a0) (mul3 a1) a2 a3;
   xor4 a0 (mul2 a1) (mul3 a2) a3;
   xor4 a0 a1 (mul2 a2) (mul3 a3);
   xor4 (mul3 a0) a1 a2 (mul2 a3)].

Definition inv_mix_column (a0 a1 a2 a3 : byte) : bytes :=
  [xor4 (mul14 a0) (mul11 a1) (mul13 a2) (mul9 a3);
   xor4 (mul9 a0) (mul14 a1) (mul11 a2) (mul13 a3);
   xor4 (mul13 a0) (mul9 a1) (mul14 a2) (mul11 a3);
   xor4 (mul11 a0) (mul13 a1) (mul9 a2) (mul14 a3)].

Definition sub_bytes (s : bytes) : bytes := map sbox s.
Definition inv_sub_bytes (s : bytes) : bytes := map inv_sbox s.

Definition shift_rows (s : bytes) : bytes :=
  match s with
  | [s0; s1; s2; s3; s4; s5; s6; s7; s8; s9; s10; s11; s12; s13; s14; s15] =>
      [s0; s5; s10; s15; s4; s9; s14; s3; s8; s13; s2; s7; s12; s1; s6; s11]
  | _ => s
  end.

Definition inv_shift_rows (s : bytes) : bytes :=
  match s with
  | [s0; s1; s2; s3; s4; s5; s6; s7; s8; s9; s10; s11; s12; s13; s14; s15] =>
      [s0; s13; s10; s7; s4; s1; s14; s11; s8; s5; s2; s15; s12; s9; s6; s3]
  | _ => s
  end.

Definition mix_columns (s : bytes) : bytes :=
  match s with
  | [s0; s1; s2; s3; s4; s5; s6; s7; s8; s9; s10; s11; s12; s13; s14; s15] =>
      mix_column s0 s1 s2 s3 ++ mix_column s4 s5 s6 s7
        ++ mix_column s8 s9 s10 s11 ++ mix_column s12 s13 s14 s15
  | _ => s
  end.

Definition inv_mix_columns (s : bytes) : bytes :=
  match s with
  | [s0; s1; s2; s3; s4; s5; s6; s7; s8; s9; s10; s11; s12; s13; s14; s15] =>
      inv_mix_column s0 s1 s2 s3 ++ inv_mix_column s4 s5 s6 s7
        ++ inv_mix_column s8 s9 s10 s11 ++ inv_mix_column s12 s13 s14 s15
  | _ => s
  end.

(** A word of the key schedule. *)
Definition word : Type := (byte * byte * byte * byte)%type.

Definition word_bytes (w : word) : bytes :=
  let '(a, b, c, d) := w in [a; b; c; d].

Definition xor_word (v w : word) : word :=
  let '(a, b, c, d) := v in
  let '(a', b', c', d') := w in
  (byte_xor a a', byte_xor b b', byte_xor c c', byte_xor d d').

Definition rot_word (w : word) : word :=
  let '(a, b, c, d) := w in (b, c, d, a).

Definition sub_word (w : word) : word :=
  let '(a, b, c, d) := w in (sbox a, sbox b, sbox c, sbox d).

(** The round constants of the seven rounds of a 256-bit key schedule. *)
Definition rcon (i : nat) : word :=
  (nth i [x00; x01; x02; x04; x08; x10; x20; x40] x00, x00, x00, x00).

(** The word number [i] of the key itself. *)
Definition key_word (key : bytes) (i : nat) : word :=
  (nth (4 * i) key x00, nth (4 * i + 1) key x00,
   nth (4 * i + 2) key x00, nth (4 * i + 3) key x00).

(** The words [i], [i + 1], ... of the schedule, [count] of them, added to
    the words [ws] found so far. *)
Fixpoint expand_loop (count i : nat) (ws : list word) : list word :=
  match count with
  | O => ws
  | S count' =>
      let prev := nth (i - 1) ws (x00, x00, x00, x00) in
      let temp :=
        if i mod 8 =? 0 then xor_word (sub_word (rot_word prev)) (rcon (i / 8))
        else if i mod 8 =? 4 then sub_word prev
        else prev in
      let w := xor_word (nth (i - 8) ws (x00, x00, x00, x00)) temp in
      expand_loop count' (S i) (ws ++ [w])
  end.

(** The 60 words of the schedule of a 256-bit key. *)
Definition key_expansion (key : bytes) : list word :=
  expand_loop 52 8 (map (key_word key) (seq 0 8)).

Definition round_key (ws : list word) (r : nat) : bytes :=
  word_bytes (nth (4 * r) ws (x00, x00, x00, x00))
    ++ word_bytes (nth (4 * r + 1) ws (x00, x00, x00, x00))
    ++ word_bytes (nth (4 * r + 2) ws (x00, x00, x00, x00))
    ++ word_bytes (nth (4 * r + 3) ws (x00, x00, x00, x00)).

Definition add_round_key (s rk : bytes) : bytes := xor_bytes s rk.

Definition round (ws : list word) (s : bytes) (r : nat) : bytes :=
  add_round_key (mix_columns (shift_rows (sub_bytes s))) (round_key ws r).

Definition inv_round (ws : list word) (s : bytes) (r : nat) : bytes :=
  inv_mix_columns (add_round_key (inv_sub_bytes (inv_shift_rows s)) (round_key ws r)).

(** The cipher: 14 rounds, the last one without [mix_columns]. *)
Definition cipher (key block : bytes) : bytes :=
  let ws := key_expansion key in
  let s := add_round_key block (round_key ws 0) in
  let s := fold_left (round ws) (seq 1 13) s in
  add_round_key (shift_rows (sub_bytes s)) (round_key ws 14).

(** The inverse cipher. *)
Definition inv_cipher (key block : bytes) : bytes :=
  let ws := key_expansion key in
  let s := add_round_key block (round_key ws 14) in
  let s := fold_left (inv_round ws) (rev (seq 1 13)) s in
  add_round_key (inv_sub_bytes (inv_shift_rows s)) (round_key ws 0).

End AES.

Definition aes256 : AES256 := {|
  aes_encrypt_block := AES.cipher;
  aes_decrypt_block := AES.inv_cipher
|}.

(** ** Inputs used to run the definitions *)

(** Lower-casing of the letters A to Z only. *)
Definition ascii_lower_unit (u : N) : N :=
  (if (65 <=? u) && (u <=? 90) then u + 32 else u)%N.

Definition ascii_locale : Locale := {|
  toLocaleLowerCase := map ascii_lower_unit
|}.

(** The bytes of an ASCII literal. *)
Definition ascii_bytes (s : string) : bytes := map byte_of_ascii (list_ascii_of_string s).

Definition hex_digit (c : ascii) : N :=
  let n := N_of_ascii c in
  (if (48 <=? n) && (n <=? 57) then n - 48
   else if (97 <=? n) && (n <=? 102) then n - 87
   else 0)%N.

(** The bytes written as a lower-case hexadecimal string. *)
Fixpoint hex (s : string) : bytes :=
  match s with
  | String a (String b s') => byte_of_N (16 * hex_digit a + hex_digit b) :: hex s'
  | _ => []
  end.

(** The inputs of the tests in [test.ts], and an IV. *)
Definition test_message : bytes := ascii_bytes "Hello, Francis!".
Definition test_key : bytes := ascii_bytes "This is a weak key".
Definition test_iv : bytes :=
  [x00; x01; x02; x03; x04; x05; x06; x07; x08; x09; x0a; x0b; x0c; x0d; x0e; x0f].
Definition test_iv' : bytes := repeat xff 16.

(** An envelope that is not the output of [encrypt]: [test_iv] followed by
    one block of zero bytes. *)
Definition zero_block_envelope : bytes := test_iv ++ repeat x00 16.

(** ** The other prompts of [lib.ts] *)

(** The [prompt] option of an optional prompt argument. *)
Definition prompt_text (prompt_arg : option jsstring) : jsstring :=
  match prompt_arg with
  | Some p => p
  | None => []
  end.

(** [requestPassword(prompt)], with [line] the user's reply: [read] without
    a default value.  The options [silent] and [replace] only change what
    the terminal shows while the user types. *)
Definition requestPassword (prompt_arg : option jsstring) (line : jsstring) : jsstring :=
  read {| prompt := prompt_text prompt_arg; default := [] |} line.

(** [requestInput(prompt)], with [line] the user's reply. *)
Definition requestInput (prompt_arg : option jsstring) (line : jsstring) : jsstring :=
  read {| prompt := prompt_text prompt_arg; default := [] |} line.

(** ** Hexadecimal text *)

Definition hex_char (n : N) : N := (if n <? 10 then 48 + n else 87 + n)%N.

(** [buf.toString("hex")]: two lower-case digits per byte. *)
Definition toString_hex (buf : bytes) : jsstring :=
  flat_map (fun b => [hex_char (Byte.to_N b / 16); hex_char (Byte.to_N b mod 16)]) buf.

(** The value of a hexadecimal digit, in either case; Node reads the low
    byte of the code unit. *)
Definition unhex (u : N) : option N :=
  (let c := u mod 256 in
   if (48 <=? c) && (c <=? 57) then Some (c - 48)
   else if (65 <=? c) && (c <=? 70) then Some (c - 55)
   else if (97 <=? c) && (c <=? 102) then Some (c - 87)
   else None)%N.

(** [Buffer.from(s, "hex")]: pairs of digits are decoded up to the first
    pair that is not hexadecimal; a last digit without a partner is
    dropped. *)
Fixpoint from_hex (s : jsstring) : bytes :=
  match s with
  | a :: b :: rest =>
      match unhex a, unhex b with
      | Some x, Some y => byte_of_N (16 * x + y) :: from_hex rest
      | _, _ => []
      end
  | _ => []
  end.

(** ** The tests of [test.ts] *)

Definition bytes_eqb (a b : bytes) : bool :=
  if list_eq_dec byte_eq_dec a b then true else false.

Module Test.

(** [assert.deepStrictEqual] on two buffers: whether the assertion
    passes. *)
Definition deepStrictEqual (actual expected : bytes) : bool := bytes_eqb actual expected.

(** [testUtilsPrepareKey], with the results of its two calls of
    [randomBytes]: whether its four assertions pass. *)
Definition testUtilsPrepareKey (random32 random36 : bytes) : bool :=
  let expected1 := Buffer.fill (Buffer.alloc 32) x00 in
  let actual1 := prepareKey [] in
  let expected2 :=
    Buffer.concat [[x01; x02; x03; x04]; Buffer.fill (Buffer.alloc 28) x00] in
  let actual2 := prepareKey [x01; x02; x03; x04] in
  let expected3 := random32 in
  let actual3 := prepareKey expected3 in
  let tooLong4 := random36 in
  let expected4 := Buffer.subarray tooLong4 0 32 in
  let actual4 := prepareKey expected4 in
  deepStrictEqual actual1 expected1
  && deepStrictEqual actual2 expected2
  && deepStrictEqual actual3 expected3
  && deepStrictEqual actual4 expected4.

Definition message : bytes := utf8_bytes (js "Hello, Francis!").
Definition key : bytes := utf8_bytes (js "This is a weak key").

(** [testUtilEncryptAndDecrypt], with the IV drawn by [encrypt]: whether it
    returns without an exception. *)
Definition testUtilEncryptAndDecrypt {aes : AES256} (iv : bytes) : bool :=
  match encrypt iv (DataBuffer message) key with
  | Err _ => false
  | Ok e =>
      match decrypt e key with
      | Err _ => false
      | Ok d => deepStrictEqual d message
      end
  end.

(** [testAsync], with the IV drawn by [encryptAsync]. *)
Definition testAsync {aes : AES256} (iv : bytes) : bool :=
  match encryptAsync iv (DataBuffer message) key with
  | Resolved encrypted =>
      match decrypt encrypted key with
      | Err _ => false
      | Ok decryptedSync =>
          deepStrictEqual decryptedSync message
          && match awaited (decryptAsync encrypted key) with
             | Resolved decryptedAsync => deepStrictEqual decryptedAsync message
             | _ => false
             end
      end
  | _ => false
  end.

(** [testAll]: the three tests in turn. *)
Definition testAll {aes : AES256} (random32 random36 iv iv' : bytes) : bool :=
  testUtilsPrepareKey random32 random36
  && testUtilEncryptAndDecrypt iv
  && testAsync iv'.

End Test.

(** ** The command [prompt-encrypt]

    The terminal is the list of the lines the user types, one for each
    prompt; a function that prompts returns what it logged with
    [console.log] and how it ended. *)

Inductive interaction (A : Type) : Type :=
  | Finished (a : A) (rest : list jsstring)
  | Waiting.

Arguments Finished {A} a rest.
Arguments Waiting {A}.

Module PromptEncrypt.

Inductive color : Type := yellow | red | green | default_color.

Definition escape (code : string) : jsstring := 27%N :: js code.

(** [setColor(color)]: the text it logs. *)
Definition setColor (c : color) : list jsstring :=
  match c with
  | yellow => [escape "[33m"]
  | red => [escape "[31m"]
  | green => [escape "[32m"]
  | default_color => [escape "[0m"]
  end.

(** A number in a template string. *)
Definition decimal (n : nat) : jsstring := js (NilEmpty.string_of_uint (Nat.to_uint n)).

Definition confirm_prompt (p1 : jsstring) : jsstring :=
  js "Your password has character length " ++ decimal (length p1)
    ++ js ". Are you sure it's enough?".

Section Main.

Context {aes : AES256} {locale : Locale}.

(** The first loop of [main]: the password is asked twice until the two
    replies agree; a password of fewer than 8 code units has to be
    confirmed, and is asked again when it is not. *)
Fixpoint password_loop (lines : list jsstring) : list jsstring * interaction jsstring :=
  match lines with
  | l1 :: l2 :: rest =>
      let p1 := requestPassword (Some (js "Enter password: ")) l1 in
      let p2 := requestPassword (Some (js "Enter password again: ")) l2 in
      if negb (jsstring_eqb p1 p2) then
        let '(log, r) := password_loop rest in
        (setColor red ++ [js "Passwords don't match. Try again."]
           ++ setColor default_color ++ log, r)
      else if length p1 <? 8 then
        match rest with
        | l3 :: rest' =>
            let confirmation := askQuestion (confirm_prompt p1) None l3 in
            if confirmation then
              (setColor yellow ++ setColor default_color, Finished p1 rest')
            else
              let '(log, r) := password_loop rest' in
              (setColor yellow ++ setColor default_color ++ log, r)
        | [] => (setColor yellow, Waiting)
        end
      else ([[]], Finished p1 rest)
  | _ => ([], Waiting)
  end.

(** The second loop: the message is asked twice until the two replies
    agree. *)
Fixpoint message_loop (lines : list jsstring) : list jsstring * interaction jsstring :=
  match lines with
  | l1 :: l2 :: rest =>
      let m1 := requestPassword (Some (js "Enter message: ")) l1 in
      let m2 := requestPassword (Some (js "Enter message again: ")) l2 in
      if negb (jsstring_eqb m1 m2) then
        let '(log, r) := message_loop rest in
        (setColor red ++ [js "Messages don't match. Try again."]
           ++ setColor default_color ++ log, r)
      else ([], Finished m1 rest)
  | _ => ([], Waiting)
  end.

(** How [main] ends, up to the loop that saves the file: waiting for a
    reply, with an exception of [encrypt], by returning because the user
    declined to save, or by entering the loop that asks for a file path
    (which is not described here). *)
Inductive outcome : Type :=
  | Blocked
  | Threw (e : crypto_error)
  | Returned (encrypted : bytes) (rest : list jsstring)
  | Saving (encrypted : bytes) (rest : list jsstring).

Definition banner : list jsstring :=
  [10%N :: js "This is a simple encryption tool based on the AES-256 CBC algorithm.";
   js "[read more](https://github.com/BB-301/node-simple-encryption-util)" ++ [10%N]].

(** [main], with the IV drawn by [encrypt] and the lines typed. *)
Definition main (iv : bytes) (lines : list jsstring) : list jsstring * outcome :=
  match password_loop lines with
  | (log1, Waiting) => (banner ++ log1, Blocked)
  | (log1, Finished p1 rest1) =>
      match message_loop rest1 with
      | (log2, Waiting) => (banner ++ log1 ++ log2, Blocked)
      | (log2, Finished m1 rest2) =>
          match encrypt iv (DataString m1) (utf8_bytes p1) with
          | Err e => (banner ++ log1 ++ log2, Threw e)
          | Ok encrypted =>
              let log3 :=
                [10%N :: js "Here's your hex-encoded encrypted message:"]
                  ++ setColor green ++ [toString_hex encrypted]
                  ++ setColor default_color in
              match rest2 with
              | [] => (banner ++ log1 ++ log2 ++ log3, Blocked)
              | l :: rest3 =>
                  let saveToFile :=
                    askQuestion
                      (js "Would you like to save the encrypted message to a file?")
                      (Some [js "yes"; js "y"]) l in
                  if negb saveToFile then
                    (banner ++ log1 ++ log2 ++ log3 ++ [[]], Returned encrypted rest3)
                  else
                    (banner ++ log1 ++ log2 ++ log3 ++ [[]], Saving encrypted rest3)
              end
          end
      end
  end.

End Main.

End PromptEncrypt.

(** ** Decoding UTF-8

    [buf.toString("utf-8")].  A byte that cannot start or continue a
    sequence ends the sequence in progress and yields U+FFFD; a byte that
    ends a sequence in this way is then read as the start of the next one. *)

Definition utf16_units (c : N) : jsstring :=
  (if c <? 0x10000 then [c]
   else [0xD800 + (c - 0x10000) / 1024; 0xDC00 + (c - 0x10000) mod 1024])%N.

(** A sequence in progress: the bits read so far, the number of bytes still
    to come, and the range allowed for the next byte. *)
Record utf8_sequence : Type := {
  seq_bits : N;
  seq_needed : nat;
  seq_lower : N;
  seq_upper : N
}.

(** A byte read when no sequence is in progress. *)
Definition utf8_start (b : N) : jsstring * option utf8_sequence :=
  (if b <=? 0x7F then ([b], None)
   else if (0xC2 <=? b) && (b <=? 0xDF) then
     ([], Some {| seq_bits := b - 0xC0; seq_needed := 1;
                  seq_lower := 0x80; seq_upper := 0xBF |})
   else if (0xE0 <=? b) && (b <=? 0xEF) then
     ([], Some {| seq_bits := b - 0xE0; seq_needed := 2;
                  seq_lower := if b =? 0xE0 then 0xA0 else 0x80;
                  seq_upper := if b =? 0xED then 0x9F else 0xBF |})
   else if (0xF0 <=? b) && (b <=? 0xF4) then
     ([], Some {| seq_bits := b - 0xF0; seq_needed := 3;
                  seq_lower := if b =? 0xF0 then 0x90 else 0x80;
                  seq_upper := if b =? 0xF4 then 0x8F else 0xBF |})
   else ([0xFFFD], None))%N.

Fixpoint utf8_decode (st : option utf8_sequence) (buf : bytes) : jsstring :=
  match buf with
  | [] =>
      match st with
      | None => []
      | Some _ => [0xFFFD%N]
      end
  | b :: rest =>
      let n := Byte.to_N b in
      match st with
      | None =>
          let '(out, st') := utf8_start n in
          out ++ utf8_decode st' rest
      | Some s =>
          if ((seq_lower s <=? n) && (n <=? seq_upper s))%N then
            let bits := (seq_bits s * 64 + (n - 0x80))%N in
            match seq_needed s with
            | S (S k) =>
                utf8_decode (Some {| seq_bits := bits; seq_needed := S k;
                                     seq_lower := 0x80; seq_upper := 0xBF |}) rest
            | _ => utf16_units bits ++ utf8_decode None rest
            end
          else
            let '(out, st') := utf8_start n in
            (0xFFFD%N :: out) ++ utf8_decode st' rest
      end
  end.

Definition toString_utf8 (buf : bytes) : jsstring := utf8_decode None buf.

(** A string whose surrogates come in pairs. *)
Fixpoint well_formed (s : jsstring) : bool :=
  match s with
  | [] => true
  | u :: rest =>
      if is_high_surrogate u then
        match rest with
        | v :: rest' => is_low_surrogate v && well_formed rest'
        | [] => false
        end
      else negb (is_low_surrogate u) && (u <? 0x10000)%N && well_formed rest
  end.

(** [s.toWellFormed()]: every surrogate that is not part of a pair is
    replaced by U+FFFD. *)
Fixpoint toWellFormed (s : jsstring) : jsstring :=
  match s with
  | [] => []
  | u :: rest =>
      if is_high_surrogate u then
        match rest with
        | v :: rest' =>
            if is_low_surrogate v then u :: v :: toWellFormed rest'
            else 0xFFFD%N :: toWellFormed rest
        | [] => [0xFFFD%N]
        end
      else if is_low_surrogate u then 0xFFFD%N :: toWellFormed rest
      else u :: toWellFormed rest
  end.

(** The code units of a JavaScript string are 16-bit numbers. *)
Definition code_units (s : jsstring) : Prop := Forall (fun u => (u < 0x10000)%N) s.

(** ** The examples *)

(** How an example's [main] ends: by returning, with what it logged, with a
    failed assertion, or with an exception of the library. *)
Inductive run : Type :=
  | Passed (log : list jsstring)
  | AssertionFailed
  | Raised (e : crypto_error)
  | Unsettled.

Module Example2.

(** The body of [main], for any values of its constants [secretMessage]
    and [password], with the IV drawn by [encrypt]. *)
Definition body {aes : AES256} (secretMessage password : jsstring) (iv : bytes) : run :=
  let key := utf8_bytes password in
  match encrypt iv (DataBuffer (utf8_bytes secretMessage)) key with
  | Err e => Raised e
  | Ok encrypted =>
      match decrypt encrypted key with
      | Err e => Raised e
      | Ok d =>
          let decrypted := toString_utf8 d in
          if jsstring_eqb decrypted secretMessage then
            Passed [js "Encrypted data: " ++ toString_hex encrypted;
                    js "Decrypted message: " ++ secretMessage]
          else AssertionFailed
      end
  end.

Definition main {aes : AES256} (iv : bytes) : run :=
  body (js "This is a secret message") (js "strong_password") iv.

End Example2.

Module Example3.

Definition EXPECTED_MESSAGE : jsstring := js "This is a secret message!".

Definition HEX_ENCRYPTED_MESSAGE : jsstring :=
  js "0a2a0794611400aca0fa45e21e35c1131e600316802365b363db7008366e5bf2195929980d6136be8478686b7515792f".

(** [main], with [line] the password typed. *)
Definition main {aes : AES256} (line : jsstring) : run :=
  let password := requestPassword (Some (js "Please enter your password: ")) line in
  let key := utf8_bytes password in
  let data := from_hex HEX_ENCRYPTED_MESSAGE in
  match awaited (decryptAsync data key) with
  | Pending => Unsettled
  | Rejected e => Raised e
  | Resolved d =>
      let decryptedMessage := toString_utf8 d in
      if jsstring_eqb decryptedMessage EXPECTED_MESSAGE then
        Passed [js "The secret message is: " ++ decryptedMessage ++ [10%N]]
      else AssertionFailed
  end.

End Example3.

(** ** More inputs used to run the definitions *)

(** The envelope of ["Hello, Francis!!"] under [test_key] and [test_iv]:
    two blocks after the IV. *)
Definition two_block_ciphertext : bytes :=
  hex "809d86549ed750ee28898d3df051cb4dfd641b6fb09660ac7cf1785219fb6f76".

(** A string with an accent, a euro sign and an emoji. *)
Definition accented_string : jsstring := [0xE9; 0x20AC; 0xD83D; 0xDE00]%N.

(** A session of [prompt-encrypt]: a mistyped password, a short password
    typed twice and confirmed, the message typed twice, and the saving
    declined. *)
Definition session : list jsstring :=
  [js "secret"; js "secrey"; js "secret"; js "secret"; js "YES";
   js "hello"; js "hello"; js "n"].

(** * Properties *)

(** ** Bytes *)

Lemma byte_xor_cancel (a b : byte) : byte_xor (byte_xor a b) b = a.
Proof.
  unfold byte_xor.
  destruct (Byte.to_bits a) as [a0 [a1 [a2 [a3 [a4 [a5 [a6 a7]]]]]]] eqn:Ea.
  destruct (Byte.to_bits b) as [b0 [b1 [b2 [b3 [b4 [b5 [b6 b7]]]]]]] eqn:Eb.
  rewrite Byte.to_bits_of_bits.
  rewrite !xorb_assoc, !xorb_nilpotent, !xorb_false_r.
  rewrite <- Ea. apply Byte.of_bits_to_bits.
Qed.

Lemma xor_bytes_length (a b : bytes) :
  length (xor_bytes a b) = Nat.min (length a) (length b).
Proof.
  revert b. induction a as [|x a IH]; intros [|y b]; simpl; auto.
Qed.

Lemma xor_bytes_cancel (a b : bytes) :
  length a <= length b -> xor_bytes (xor_bytes a b) b = a.
Proof.
  revert b. induction a as [|x a IH]; intros [|y b] Hlen; simpl in *; try lia; auto.
  rewrite byte_xor_cancel, IH by lia. reflexivity.
Qed.

Lemma byte_of_nat_to_nat (n : nat) : n <= 255 -> Byte.to_nat (byte_of_nat n) = n.
Proof.
  intros Hn. unfold byte_of_nat.
  destruct (Byte.of_nat n) as [b|] eqn:E.
  - apply Byte.to_of_nat in E. exact E.
  - apply Byte.of_nat_None_iff in E. lia.
Qed.

(** ** Buffers *)

Lemma fill_alloc (n : nat) : Buffer.fill (Buffer.alloc n) x00 = repeat x00 n.
Proof.
  unfold Buffer.fill, Buffer.alloc. induction n; simpl; congruence.
Qed.

Lemma subarray_prefix (buf : bytes) (n : nat) : Buffer.subarray buf 0 n = firstn n buf.
Proof. unfold Buffer.subarray. now rewrite Nat.sub_0_r. Qed.

(** ** [prepareKey] *)

Lemma prepareKey_long (key : bytes) :
  KEY_SIZE <= length key -> prepareKey key = firstn KEY_SIZE key.
Proof.
  intros H. unfold prepareKey.
  apply Nat.leb_le in H. rewrite H. apply subarray_prefix.
Qed.

Lemma prepareKey_short (key : bytes) :
  length key < KEY_SIZE -> prepareKey key = key ++ repeat x00 (KEY_SIZE - length key).
Proof.
  intros H. unfold prepareKey.
  apply Nat.leb_gt in H. rewrite H.
  rewrite fill_alloc. unfold Buffer.concat. simpl. now rewrite app_nil_r.
Qed.

Lemma prepareKey_length (key : bytes) : length (prepareKey key) = KEY_SIZE.
Proof.
  destruct (le_lt_dec KEY_SIZE (length key)) as [H|H].
  - rewrite prepareKey_long by exact H. rewrite length_firstn. lia.
  - rewrite prepareKey_short by exact H. rewrite length_app, repeat_length. lia.
Qed.

(** C2. [prepareKey] is a function defined on every buffer; its result always
    has 32 bytes: the first 32 bytes of a password of 32 bytes or more, and
    a shorter password followed by zero bytes up to 32.  So the empty
    password gives 32 zero bytes and a 32-byte password is returned as it
    is. *)
Theorem prepareKey_spec (key : bytes) :
  length (prepareKey key) = 32
  /\ (32 <= length key -> prepareKey key = firstn 32 key)
  /\ (length key < 32 -> prepareKey key = key ++ repeat x00 (32 - length key))
  /\ prepareKey [] = repeat x00 32
  /\ (length key = 32 -> prepareKey key = key).
Proof.
  split; [apply prepareKey_length|].
  split; [apply prepareKey_long|].
  split; [apply prepareKey_short|].
  split; [reflexivity|].
  intros H. rewrite prepareKey_long by (unfold KEY_SIZE; lia).
  unfold KEY_SIZE. rewrite <- H. apply firstn_all.
Qed.


(** ** CBC chaining *)

Lemma firstn_app_exact (n : nat) (l1 l2 : bytes) :
  length l1 = n -> firstn n (l1 ++ l2) = l1.
Proof.
  intros <-. rewrite firstn_app, Nat.sub_diag, firstn_0, firstn_all. apply app_nil_r.
Qed.

Lemma skipn_app_exact (n : nat) (l1 l2 : bytes) :
  length l1 = n -> skipn n (l1 ++ l2) = l2.
Proof.
  intros <-. rewrite skipn_app, Nat.sub_diag, skipn_all. reflexivity.
Qed.

(** Linear arithmetic once the size constants are numbers, with division
    and remainder by a constant. *)
Ltac Zify.zify_post_hook ::= Z.to_euclidean_division_equations.
Ltac sizes := unfold BLOCK_SIZE, KEY_SIZE, IV_SIZE in *; lia.

Section Chaining.

Context {aes : AES256}.

Lemma cbc_encrypt_loop_S (n : nat) (key ch data : bytes) :
  cbc_encrypt_loop (S n) key ch data =
    let c := aes_encrypt_block key (xor_bytes (firstn BLOCK_SIZE data) ch) in
    (c ++ fst (cbc_encrypt_loop n key c (skipn BLOCK_SIZE data)),
     snd (cbc_encrypt_loop n key c (skipn BLOCK_SIZE data))).
Proof.
  cbn [cbc_encrypt_loop]. cbv zeta.
  match goal with |- context [cbc_encrypt_loop n ?k ?c ?d] =>
    destruct (cbc_encrypt_loop n k c d) end.
  reflexivity.
Qed.

Lemma cbc_decrypt_loop_S (n : nat) (key ch data : bytes) :
  cbc_decrypt_loop (S n) key ch data =
    let c := firstn BLOCK_SIZE data in
    (xor_bytes (aes_decrypt_block key c) ch
       ++ fst (cbc_decrypt_loop n key c (skipn BLOCK_SIZE data)),
     snd (cbc_decrypt_loop n key c (skipn BLOCK_SIZE data))).
Proof.
  cbn [cbc_decrypt_loop]. cbv zeta.
  match goal with |- context [cbc_decrypt_loop n ?k ?c ?d] =>
    destruct (cbc_decrypt_loop n k c d) end.
  reflexivity.
Qed.

(** The loops read only the first [n] blocks of their input. *)
Lemma cbc_encrypt_loop_app (n : nat) (key ch data rest : bytes) :
  BLOCK_SIZE * n <= length data ->
  cbc_encrypt_loop n key ch (data ++ rest) = cbc_encrypt_loop n key ch data.
Proof.
  revert ch data. induction n as [|n IH]; intros ch data Hlen; [reflexivity|].
  rewrite !cbc_encrypt_loop_S. cbv zeta.
  rewrite firstn_app, skipn_app.
  replace (BLOCK_SIZE - length data) with 0 by sizes.
  rewrite firstn_0, skipn_O, app_nil_r, IH; [reflexivity|].
  rewrite length_skipn. sizes.
Qed.

(** Running [n + m] blocks is running [n] and then [m] on what is left. *)
Lemma cbc_encrypt_loop_add (n m : nat) (key ch data : bytes) :
  cbc_encrypt_loop (n + m) key ch data =
    let r := cbc_encrypt_loop n key ch data in
    let r' := cbc_encrypt_loop m key (snd r) (skipn (BLOCK_SIZE * n) data) in
    (fst r ++ fst r', snd r').
Proof.
  revert ch data. induction n as [|n IH]; intros ch data.
  - cbv zeta. rewrite Nat.mul_0_r, skipn_O. cbn [Nat.add cbc_encrypt_loop fst snd app].
    now destruct (cbc_encrypt_loop m key ch data).
  - replace (S n + m) with (S (n + m)) by lia.
    rewrite !cbc_encrypt_loop_S. cbv zeta. rewrite IH. cbv zeta. cbn [fst snd].
    rewrite skipn_skipn.
    replace (BLOCK_SIZE * n + BLOCK_SIZE) with (BLOCK_SIZE * S n) by lia.
    now rewrite app_assoc.
Qed.

Section ChainingLaws.

(** What the proofs use of AES: under a 32-byte key a block is mapped to
    a block, and decryption undoes encryption. *)
Hypothesis aes_block_length : forall key block,
  length key = KEY_SIZE -> length block = BLOCK_SIZE ->
  length (aes_encrypt_block key block) = BLOCK_SIZE.

Hypothesis aes_decrypt_encrypt : forall key block,
  length key = KEY_SIZE -> length block = BLOCK_SIZE ->
  aes_decrypt_block key (aes_encrypt_block key block) = block.

Lemma cbc_encrypt_loop_length (n : nat) (key ch data : bytes) :
  length key = KEY_SIZE -> length ch = BLOCK_SIZE ->
  BLOCK_SIZE * n <= length data ->
  length (fst (cbc_encrypt_loop n key ch data)) = BLOCK_SIZE * n
  /\ length (snd (cbc_encrypt_loop n key ch data)) = BLOCK_SIZE.
Proof.
  intros Hkey. revert ch data.
  induction n as [|n IH]; intros ch data Hch Hlen.
  { cbn [cbc_encrypt_loop fst snd length]. split; [lia|exact Hch]. }
  rewrite cbc_encrypt_loop_S. cbv zeta. cbn [fst snd].
  set (c := aes_encrypt_block key _).
  assert (Hc : length c = BLOCK_SIZE).
  { apply aes_block_length; [exact Hkey|].
    rewrite xor_bytes_length, length_firstn. sizes. }
  destruct (IH c (skipn BLOCK_SIZE data) Hc) as [H1 H2].
  { rewrite length_skipn. sizes. }
  rewrite length_app, H1, Hc. split; [lia|exact H2].
Qed.

(** Decrypting the blocks that the encryption loop produced gives back
    the input blocks, and leaves the same chaining value. *)
Lemma cbc_decrypt_encrypt_loop (n : nat) (key ch data rest : bytes) :
  length key = KEY_SIZE -> length ch = BLOCK_SIZE ->
  BLOCK_SIZE * n <= length data ->
  cbc_decrypt_loop n key ch (fst (cbc_encrypt_loop n key ch data) ++ rest) =
    (firstn (BLOCK_SIZE * n) data, snd (cbc_encrypt_loop n key ch data)).
Proof.
  intros Hkey. revert ch data.
  induction n as [|n IH]; intros ch data Hch Hlen.
  - rewrite Nat.mul_0_r. reflexivity.
  - rewrite cbc_encrypt_loop_S. cbv zeta. cbn [fst snd].
    set (x := xor_bytes (firstn BLOCK_SIZE data) ch).
    set (c := aes_encrypt_block key x).
    assert (Hx : length x = BLOCK_SIZE).
    { unfold x. rewrite xor_bytes_length, length_firstn. sizes. }
    assert (Hc : length c = BLOCK_SIZE) by (apply aes_block_length; assumption).
    rewrite cbc_decrypt_loop_S. cbv zeta.
    rewrite <- app_assoc.
    rewrite (firstn_app_exact _ _ _ Hc), (skipn_app_exact _ _ _ Hc).
    rewrite IH; [|exact Hc|rewrite length_skipn; sizes].
    cbn [fst snd]. f_equal.
    unfold c. rewrite aes_decrypt_encrypt by assumption.
    unfold x. rewrite xor_bytes_cancel by (rewrite length_firstn; sizes).
    replace (BLOCK_SIZE * S n) with (BLOCK_SIZE + BLOCK_SIZE * n) by lia.
    rewrite <- (firstn_skipn BLOCK_SIZE data) at 3.
    rewrite firstn_app, length_firstn.
    replace (Nat.min BLOCK_SIZE (length data)) with BLOCK_SIZE by sizes.
    rewrite firstn_firstn.
    replace (Nat.min (BLOCK_SIZE + BLOCK_SIZE * n) BLOCK_SIZE) with BLOCK_SIZE by lia.
    now replace (BLOCK_SIZE + BLOCK_SIZE * n - BLOCK_SIZE) with (BLOCK_SIZE * n) by lia.
Qed.

End ChainingLaws.

End Chaining.

(** ** The cipher object *)

Lemma unpadblock_padded (t : bytes) :
  length t < BLOCK_SIZE ->
  let k := BLOCK_SIZE - length t in
  unpadblock (t ++ repeat (byte_of_nat k) k) = Ok t.
Proof.
  intros Hlen k. unfold unpadblock.
  assert (Hk : 1 <= k <= BLOCK_SIZE) by (unfold k; sizes).
  assert (Hlast : nth (BLOCK_SIZE - 1) (t ++ repeat (byte_of_nat k) k) x00 = byte_of_nat k).
  { rewrite app_nth2 by sizes. apply nth_repeat_lt. unfold k. sizes. }
  rewrite Hlast, byte_of_nat_to_nat by sizes.
  replace (k =? 0) with false by (symmetry; apply Nat.eqb_neq; lia).
  replace (BLOCK_SIZE <? k) with false by (symmetry; apply Nat.ltb_ge; lia).
  cbn [orb].
  replace (BLOCK_SIZE - k) with (length t) by (unfold k; sizes).
  rewrite (skipn_app_exact _ _ _ eq_refl), (firstn_app_exact _ _ _ eq_refl).
  replace (forallb (Byte.eqb (byte_of_nat k)) (repeat (byte_of_nat k) k)) with true;
    [reflexivity|].
  symmetry. apply forallb_forall. intros x Hx.
  apply repeat_spec in Hx. subst x. now apply byte_dec_lb.
Qed.

Lemma createCipheriv_ok {aes : AES256} (key iv : bytes) :
  length iv = IV_SIZE ->
  createCipheriv ALGORITHM (prepareKey key) iv =
    Ok {| cipher_key := prepareKey key; chain := iv; pending := [] |}.
Proof.
  intros Hiv. unfold createCipheriv.
  rewrite Hiv, prepareKey_length, !Nat.eqb_refl. reflexivity.
Qed.

Lemma createCipheriv_bad_iv {aes : AES256} (key iv : bytes) :
  length iv <> IV_SIZE ->
  createCipheriv ALGORITHM (prepareKey key) iv = Err ERR_CRYPTO_INVALID_IV.
Proof.
  intros Hiv. unfold createCipheriv.
  apply Nat.eqb_neq in Hiv. rewrite Hiv. reflexivity.
Qed.

Section Envelope.

Context {aes : AES256}.

Lemma encrypt_staged (iv : bytes) (data : Data) (key : bytes) :
  length iv = IV_SIZE ->
  encrypt iv data key =
    Ok (iv ++ staged_ciphertext (prepareKey key) iv (data_bytes data)).
Proof.
  intros Hiv. unfold encrypt.
  rewrite createCipheriv_ok by exact Hiv. cbn [bind].
  unfold cipher_update. cbn [pending cipher_key chain app].
  destruct (cbc_encrypt_loop _ _ _ _) as [out ch] eqn:E.
  unfold cipher_final. cbn [bind pending cipher_key chain].
  unfold staged_ciphertext. cbv zeta. rewrite E. cbn [fst snd].
  unfold Buffer.concat. cbn [concat]. now rewrite app_nil_r.
Qed.

(** The staging agrees with CBC over the padded message. *)
Lemma staged_ciphertext_cbc (key iv m : bytes) :
  staged_ciphertext key iv m = cbc_encrypt key iv (pkcs_pad m).
Proof.
  unfold staged_ciphertext, cbc_encrypt, pkcs_pad. cbv zeta.
  set (n := length m / BLOCK_SIZE).
  assert (Hrest : length (skipn (BLOCK_SIZE * n) m) = length m mod BLOCK_SIZE).
  { rewrite length_skipn. unfold n. sizes. }
  rewrite Hrest.
  set (k := BLOCK_SIZE - length m mod BLOCK_SIZE).
  replace (length (m ++ repeat (byte_of_nat k) k) / BLOCK_SIZE) with (n + 1)
    by (rewrite length_app, repeat_length; unfold n, k; sizes).
  rewrite cbc_encrypt_loop_add. cbv zeta. cbn [fst].
  rewrite cbc_encrypt_loop_app with (n := n) (data := m) by (unfold n; sizes).
  rewrite skipn_app.
  replace (BLOCK_SIZE * n - length m) with 0 by (unfold n; sizes).
  now rewrite skipn_O.
Qed.

Section EnvelopeLaws.

Hypothesis aes_block_length : forall key block,
  length key = KEY_SIZE -> length block = BLOCK_SIZE ->
  length (aes_encrypt_block key block) = BLOCK_SIZE.

Hypothesis aes_decrypt_encrypt : forall key block,
  length key = KEY_SIZE -> length block = BLOCK_SIZE ->
  aes_decrypt_block key (aes_encrypt_block key block) = block.

Lemma staged_ciphertext_length (key iv m : bytes) :
  length key = KEY_SIZE -> length iv = BLOCK_SIZE ->
  length (staged_ciphertext key iv m) = BLOCK_SIZE * (length m / BLOCK_SIZE + 1).
Proof.
  intros Hkey Hiv. unfold staged_ciphertext. cbv zeta.
  set (n := length m / BLOCK_SIZE).
  destruct (cbc_encrypt_loop_length aes_block_length n key iv m Hkey Hiv) as [H1 H2];
    [unfold n; sizes|].
  rewrite length_app, H1.
  set (rest := skipn (BLOCK_SIZE * n) m).
  assert (Hrest : length rest < BLOCK_SIZE).
  { unfold rest. rewrite length_skipn. unfold n. sizes. }
  destruct (cbc_encrypt_loop_length aes_block_length 1 key _
              (rest ++ repeat (byte_of_nat (BLOCK_SIZE - length rest))
                              (BLOCK_SIZE - length rest)) Hkey H2) as [H3 _].
  { rewrite length_app, repeat_length. sizes. }
  rewrite H3. lia.
Qed.

(** Deciphering an envelope built from the staged ciphertext of [m]
    under the same prepared key returns [m]. *)
Lemma decrypt_staged (iv m key key' : bytes) :
  length iv = IV_SIZE ->
  prepareKey key' = prepareKey key ->
  decrypt (iv ++ staged_ciphertext (prepareKey key) iv m) key' = Ok m.
Proof.
  intros Hiv Hkeys. unfold decrypt. rewrite Hkeys.
  rewrite subarray_prefix, (firstn_app_exact _ _ _ Hiv).
  unfold Buffer.subarray_from. rewrite (skipn_app_exact _ _ _ Hiv).
  unfold createDecipheriv. rewrite createCipheriv_ok by exact Hiv. cbn [bind].
  pose proof (staged_ciphertext_length _ _ m (prepareKey_length key) Hiv) as Hlen.
  unfold decipher_update. cbn [pending cipher_key chain app].
  rewrite Hlen.
  replace ((BLOCK_SIZE * (length m / BLOCK_SIZE + 1)) mod BLOCK_SIZE =? 0) with true
    by (symmetry; apply Nat.eqb_eq; sizes).
  replace (BLOCK_SIZE * (length m / BLOCK_SIZE + 1) / BLOCK_SIZE - 1)
    with (length m / BLOCK_SIZE) by sizes.
  unfold staged_ciphertext. cbv zeta.
  set (n := length m / BLOCK_SIZE).
  set (K := prepareKey key).
  set (rest := skipn (BLOCK_SIZE * n) m).
  set (padded := rest ++ repeat _ _).
  assert (Hrest : length rest < BLOCK_SIZE).
  { unfold rest. rewrite length_skipn. unfold n. sizes. }
  assert (Hpadded : length padded = BLOCK_SIZE).
  { unfold padded. rewrite length_app, repeat_length. sizes. }
  destruct (cbc_encrypt_loop_length aes_block_length n _ _ m
              (prepareKey_length key) Hiv) as [H1 H2]; [unfold n; sizes|].
  fold K in H1, H2.
  rewrite (cbc_decrypt_encrypt_loop aes_block_length aes_decrypt_encrypt)
    by (try apply prepareKey_length; try exact Hiv; unfold n; sizes).
  rewrite (skipn_app_exact _ _ _ H1).
  unfold decipher_final. cbn [bind pending cipher_key chain].
  destruct (cbc_encrypt_loop_length aes_block_length 1 _ _ padded
              (prepareKey_length key) H2) as [H3 _]; [sizes|].
  fold K in H3.
  replace (length (fst (cbc_encrypt_loop 1 K (snd (cbc_encrypt_loop n K iv m)) padded))
             =? BLOCK_SIZE) with true by (symmetry; apply Nat.eqb_eq; sizes).
  cbn [negb].
  rewrite <- (app_nil_r (fst (cbc_encrypt_loop 1 K _ padded))).
  rewrite (cbc_decrypt_encrypt_loop aes_block_length aes_decrypt_encrypt)
    by (try apply prepareKey_length; try exact H2; sizes).
  cbn [fst].
  replace (BLOCK_SIZE * 1) with (length padded) by sizes.
  rewrite firstn_all. unfold padded.
  rewrite (unpadblock_padded rest Hrest). cbn [bind].
  unfold Buffer.concat. cbn [concat]. rewrite app_nil_r.
  unfold rest. now rewrite firstn_skipn.
Qed.

End EnvelopeLaws.

End Envelope.

(** ** The stream interface *)

(** Pushing a chunk and collecting it adds the chunk to the result, whether
    or not it raised a ['data'] event. *)
Lemma collect_push (st : collector) (chunk : bytes) :
  fold_left on_event (push chunk) st =
    {| buffers := buffers st ++ push_chunks chunk; outcome := outcome st |}.
Proof.
  destruct st as [bufs out]. destruct chunk; cbn; [now rewrite app_nil_r|reflexivity].
Qed.

Lemma concat_push_chunks (chunk : bytes) : concat (push_chunks chunk) = chunk.
Proof. destruct chunk; cbn; [reflexivity|now rewrite app_nil_r]. Qed.

(** Writing the whole input and ending the stream settles the promise with
    what [update] followed by [final] return. *)
Lemma collect_write_end (update : Cipher -> bytes -> Cipher * bytes)
    (final : Cipher -> result bytes) (init : list bytes) (c : Cipher) (data : bytes) :
  collect init (write_end update final c data) =
    settled (let '(c', out) := update c data in
             last <- final c' ;;
             Ok (Buffer.concat init ++ out ++ last)).
Proof.
  unfold collect, write_end.
  destruct (update c data) as [c' out]. destruct (final c') as [last|e]; cbn [bind settled].
  - rewrite !fold_left_app, !collect_push. cbn.
    unfold Buffer.concat. now rewrite !concat_app, !concat_push_chunks, app_assoc.
  - rewrite fold_left_app, collect_push. reflexivity.
Qed.

(** ** UTF-8 *)

Lemma to_N_byte_of_N (n : N) : (n <= 255)%N -> Byte.to_N (byte_of_N n) = n.
Proof.
  intros H. unfold byte_of_N. destruct (Byte.of_N n) as [b|] eqn:E.
  - now apply Byte.to_of_N.
  - apply Byte.of_N_None_iff in E. lia.
Qed.

(** Comparisons as propositions, for [lia]. *)
Ltac compare_N :=
  repeat match goal with
  | H : (_ <=? _)%N = true |- _ => apply N.leb_le in H
  | H : (_ <=? _)%N = false |- _ => apply N.leb_gt in H
  | H : (_ <? _)%N = true |- _ => apply N.ltb_lt in H
  | H : (_ <? _)%N = false |- _ => apply N.ltb_ge in H
  | H : (_ && _) = true |- _ => apply andb_prop in H; destruct H
  | H : (_ && _) = false |- _ => apply andb_false_iff in H; destruct H
  end.

(** Tests of the decoder whose outcome is known. *)
Ltac leb_true a b := replace (a <=? b)%N with true by (symmetry; apply N.leb_le; lia).
Ltac leb_false a b := replace (a <=? b)%N with false by (symmetry; apply N.leb_gt; lia).
Ltac ltb_true a b := replace (a <? b)%N with true by (symmetry; apply N.ltb_lt; lia).
Ltac ltb_false a b := replace (a <? b)%N with false by (symmetry; apply N.ltb_ge; lia).

Lemma eqb_shift (k d e : N) : (k + d =? k + e)%N = (d =? e)%N.
Proof.
  destruct (d =? e)%N eqn:E.
  - apply N.eqb_eq in E. subst. apply N.eqb_refl.
  - apply N.eqb_neq in E. apply N.eqb_neq. lia.
Qed.

Lemma utf8_start_ascii (c : N) : (c < 0x80)%N -> utf8_start c = ([c], None).
Proof. intros H. unfold utf8_start. leb_true c 0x7F%N. reflexivity. Qed.

Lemma utf8_start_lead2 (d : N) :
  (2 <= d < 32)%N ->
  utf8_start (0xC0 + d) =
    ([], Some {| seq_bits := d; seq_needed := 1; seq_lower := 0x80; seq_upper := 0xBF |}).
Proof.
  intros H. unfold utf8_start.
  leb_false (0xC0 + d)%N 0x7F%N. leb_true 0xC2%N (0xC0 + d)%N. leb_true (0xC0 + d)%N 0xDF%N.
  cbn [andb]. now replace (0xC0 + d - 0xC0)%N with d by lia.
Qed.

Lemma utf8_start_lead3 (d : N) :
  (d < 16)%N ->
  utf8_start (0xE0 + d) =
    ([], Some {| seq_bits := d; seq_needed := 2;
                 seq_lower := if (d =? 0)%N then 0xA0 else 0x80;
                 seq_upper := if (d =? 13)%N then 0x9F else 0xBF |}).
Proof.
  intros H. unfold utf8_start.
  leb_false (0xE0 + d)%N 0x7F%N. leb_false (0xE0 + d)%N 0xDF%N. rewrite andb_false_r.
  leb_true 0xE0%N (0xE0 + d)%N. leb_true (0xE0 + d)%N 0xEF%N. cbn [andb].
  replace (0xE0 + d - 0xE0)%N with d by lia.
  change 0xE0%N with (0xE0 + 0)%N at 2. change 0xED%N with (0xE0 + 13)%N.
  now rewrite !eqb_shift.
Qed.

Lemma utf8_start_lead4 (d : N) :
  (d < 5)%N ->
  utf8_start (0xF0 + d) =
    ([], Some {| seq_bits := d; seq_needed := 3;
                 seq_lower := if (d =? 0)%N then 0x90 else 0x80;
                 seq_upper := if (d =? 4)%N then 0x8F else 0xBF |}).
Proof.
  intros H. unfold utf8_start.
  leb_false (0xF0 + d)%N 0x7F%N. leb_false (0xF0 + d)%N 0xDF%N. rewrite andb_false_r.
  leb_false (0xF0 + d)%N 0xEF%N. rewrite andb_false_r.
  leb_true 0xF0%N (0xF0 + d)%N. leb_true (0xF0 + d)%N 0xF4%N. cbn [andb].
  replace (0xF0 + d - 0xF0)%N with d by lia.
  change 0xF0%N with (0xF0 + 0)%N at 2. change 0xF4%N with (0xF0 + 4)%N.
  now rewrite !eqb_shift.
Qed.

(** A continuation byte within the range the sequence allows. *)
Lemma utf8_decode_continue (s : utf8_sequence) (d : N) (rest : bytes) :
  (d < 64)%N -> (seq_lower s <= 0x80 + d)%N -> (0x80 + d <= seq_upper s)%N ->
  utf8_decode (Some s) (byte_of_N (0x80 + d) :: rest) =
    match seq_needed s with
    | S (S k) =>
        utf8_decode (Some {| seq_bits := seq_bits s * 64 + d; seq_needed := S k;
                             seq_lower := 0x80; seq_upper := 0xBF |}) rest
    | _ => utf16_units (seq_bits s * 64 + d) ++ utf8_decode None rest
    end.
Proof.
  intros Hd Hlo Hhi. cbn [utf8_decode]. rewrite to_N_byte_of_N by lia.
  apply N.leb_le in Hlo, Hhi. rewrite Hlo, Hhi. cbn [andb].
  now replace (0x80 + d - 0x80)%N with d by lia.
Qed.

Lemma utf8_decode_start (n : N) (rest : bytes) :
  (n <= 255)%N ->
  utf8_decode None (byte_of_N n :: rest) =
    fst (utf8_start n) ++ utf8_decode (snd (utf8_start n)) rest.
Proof.
  intros H. cbn [utf8_decode]. rewrite to_N_byte_of_N by exact H.
  now destruct (utf8_start n).
Qed.

(** A code point that is not a surrogate is decoded from its encoding. *)
Lemma utf8_decode_code_point (c : N) (rest : bytes) :
  (c < 0x110000)%N -> (c < 0xD800 \/ 0xDFFF < c)%N ->
  utf8_decode None (utf8_code_point c ++ rest) = utf16_units c ++ utf8_decode None rest.
Proof.
  intros Hmax Hscalar. unfold utf8_code_point.
  destruct (c <? 0x80)%N eqn:E1; [|destruct (c <? 0x800)%N eqn:E2;
                                    [|destruct (c <? 0x10000)%N eqn:E3]].
  - apply N.ltb_lt in E1. cbn [app]. rewrite utf8_decode_start by lia.
    rewrite utf8_start_ascii by exact E1. cbn [fst snd]. unfold utf16_units.
    ltb_true c 0x10000%N. reflexivity.
  - apply N.ltb_ge in E1. apply N.ltb_lt in E2.
    set (d1 := (c / 64)%N). set (d2 := (c mod 64)%N).
    assert (Hc : (c = d1 * 64 + d2 /\ d2 < 64 /\ 2 <= d1 < 32)%N) by (unfold d1, d2; lia).
    clearbody d1 d2. destruct Hc as [Hc [Hd2 Hd1]].
    cbn [app]. rewrite utf8_decode_start by lia.
    rewrite utf8_start_lead2 by exact Hd1. cbn [fst snd app].
    rewrite utf8_decode_continue by (cbn [seq_lower seq_upper]; lia).
    cbn [seq_needed seq_bits]. now rewrite <- Hc.
  - apply N.ltb_ge in E1, E2. apply N.ltb_lt in E3.
    set (d1 := (c / 4096)%N). set (d2 := ((c / 64) mod 64)%N). set (d3 := (c mod 64)%N).
    assert (Hc : (c = (d1 * 64 + d2) * 64 + d3 /\ d2 < 64 /\ d3 < 64 /\ d1 < 16)%N)
      by (unfold d1, d2, d3; lia).
    clearbody d1 d2 d3. destruct Hc as [Hc [Hd2 [Hd3 Hd1]]].
    cbn [app]. rewrite utf8_decode_start by lia.
    rewrite utf8_start_lead3 by exact Hd1. cbn [fst snd app].
    rewrite utf8_decode_continue;
      [|exact Hd2
       |cbn [seq_lower]; destruct (d1 =? 0)%N eqn:E; [apply N.eqb_eq in E|]; lia
       |cbn [seq_upper]; destruct (d1 =? 13)%N eqn:E; [apply N.eqb_eq in E|]; lia].
    cbn [seq_needed seq_bits].
    rewrite utf8_decode_continue by (cbn [seq_lower seq_upper]; lia).
    cbn [seq_needed seq_bits]. now rewrite <- Hc.
  - apply N.ltb_ge in E1, E2, E3.
    set (d1 := ((c / 262144) mod 8)%N). set (d2 := ((c / 4096) mod 64)%N).
    set (d3 := ((c / 64) mod 64)%N). set (d4 := (c mod 64)%N).
    assert (Hc : (c = ((d1 * 64 + d2) * 64 + d3) * 64 + d4
                  /\ d2 < 64 /\ d3 < 64 /\ d4 < 64 /\ d1 < 5)%N)
      by (unfold d1, d2, d3, d4; lia).
    clearbody d1 d2 d3 d4. destruct Hc as [Hc [Hd2 [Hd3 [Hd4 Hd1]]]].
    cbn [app]. rewrite utf8_decode_start by lia.
    rewrite utf8_start_lead4 by exact Hd1. cbn [fst snd app].
    rewrite utf8_decode_continue;
      [|exact Hd2
       |cbn [seq_lower]; destruct (d1 =? 0)%N eqn:E; [apply N.eqb_eq in E|]; lia
       |cbn [seq_upper]; destruct (d1 =? 4)%N eqn:E; [apply N.eqb_eq in E|]; lia].
    cbn [seq_needed seq_bits].
    rewrite utf8_decode_continue by (cbn [seq_lower seq_upper]; lia).
    cbn [seq_needed seq_bits].
    rewrite utf8_decode_continue by (cbn [seq_lower seq_upper]; lia).
    cbn [seq_needed seq_bits]. now rewrite <- Hc.
Qed.

Lemma utf8_decode_replacement (rest : bytes) :
  utf8_decode None (utf8_code_point 0xFFFD ++ rest) = 0xFFFD%N :: utf8_decode None rest.
Proof. now rewrite utf8_decode_code_point by lia. Qed.

(** Decoding the UTF-8 encoding of a string replaces its unpaired
    surrogates. *)
Lemma utf8_decode_utf8_bytes (s : jsstring) :
  code_units s -> utf8_decode None (utf8_bytes s) = toWellFormed s.
Proof.
  unfold code_units.
  induction s as [s IH] using (induction_ltof1 _ (@length N)). unfold ltof in IH.
  intros Hs. destruct s as [|u rest]; [reflexivity|].
  inversion Hs as [|? ? Hu Hrest]; subst.
  cbn [utf8_bytes toWellFormed].
  destruct (is_high_surrogate u) eqn:Ehigh.
  - destruct rest as [|v rest']; [reflexivity|].
    inversion Hrest as [|? ? Hv Hrest']; subst.
    destruct (is_low_surrogate v) eqn:Elow.
    + pose proof (IH rest' ltac:(cbn; lia) Hrest') as IH1.
      unfold is_high_surrogate, is_low_surrogate in *. compare_N.
      rewrite utf8_decode_code_point by lia.
      assert (Hpair : utf16_units (0x10000 + (u - 0xD800) * 1024 + (v - 0xDC00)) = [u; v]).
      { unfold utf16_units. ltb_false (0x10000 + (u - 0xD800) * 1024 + (v - 0xDC00))%N 0x10000%N.
        apply (f_equal2 (@cons N)); [lia|apply (f_equal2 (@cons N)); [lia|reflexivity]]. }
      rewrite Hpair. cbn [app]. now rewrite IH1.
    + pose proof (IH (v :: rest') ltac:(cbn; lia) Hrest) as IH1.
      rewrite utf8_decode_replacement. now rewrite IH1.
  - pose proof (IH rest ltac:(cbn; lia) Hrest) as IH1.
    destruct (is_low_surrogate u) eqn:Elow.
    + rewrite utf8_decode_replacement. now rewrite IH1.
    + unfold is_high_surrogate, is_low_surrogate in Ehigh, Elow.
      assert (Hscalar : (u < 0xD800 \/ 0xDFFF < u)%N) by (compare_N; lia).
      rewrite utf8_decode_code_point by (lia || exact Hscalar).
      unfold utf16_units. ltb_true u 0x10000%N. cbn [app]. now rewrite IH1.
Qed.

Lemma toWellFormed_well_formed (s : jsstring) :
  well_formed s = true -> toWellFormed s = s.
Proof.
  induction s as [s IH] using (induction_ltof1 _ (@length N)). unfold ltof in IH.
  destruct s as [|u rest]; [reflexivity|].
  cbn [well_formed toWellFormed].
  destruct (is_high_surrogate u).
  - destruct rest as [|v rest']; [discriminate|].
    destruct (is_low_surrogate v); [|discriminate].
    cbn [andb]. intros H. now rewrite (IH rest' ltac:(cbn; lia) H).
  - destruct (is_low_surrogate u); [discriminate|]. cbn [negb andb].
    intros H. apply andb_prop in H. destruct H as [_ H].
    now rewrite (IH rest ltac:(cbn; lia) H).
Qed.

(** ** The claims about [encrypt] and [decrypt] *)

Section Claims.

Context {aes : AES256}.

(** The synchronous and the asynchronous encryption agree, for every IV,
    input and password. *)
Lemma encryptAsync_encrypt (iv : bytes) (data : Data) (key : bytes) :
  encryptAsync iv data key = settled (encrypt iv data key).
Proof.
  unfold encryptAsync, encrypt.
  destruct (createCipheriv ALGORITHM (prepareKey key) iv) as [cipher|e]; [|reflexivity].
  rewrite collect_write_end. cbn [bind].
  destruct (cipher_update cipher (data_bytes data)) as [c' out].
  destruct (cipher_final c') as [last|e]; [|reflexivity].
  cbn [bind settled]. unfold Buffer.concat. cbn [concat]. now rewrite !app_nil_r.
Qed.

(** The synchronous and the asynchronous decryption agree, for every
    envelope and password. *)
Lemma decryptAsync_decrypt (encryptedData key : bytes) :
  awaited (decryptAsync encryptedData key) = settled (decrypt encryptedData key).
Proof.
  unfold decryptAsync, decrypt.
  destruct (createDecipheriv ALGORITHM (prepareKey key) _) as [decipher|e]; [|reflexivity].
  cbn [bind awaited]. rewrite collect_write_end.
  destruct (decipher_update decipher _) as [c' out].
  destruct (decipher_final c') as [last|e]; [|reflexivity].
  cbn [bind settled]. unfold Buffer.concat. cbn [concat]. now rewrite !app_nil_r.
Qed.

(** A string is encrypted as its UTF-8 bytes. *)
Lemma encrypt_string (iv : bytes) (s : jsstring) (key : bytes) :
  encrypt iv (DataString s) key = encrypt iv (DataBuffer (utf8_bytes s)) key.
Proof. reflexivity. Qed.

Section ClaimLaws.

Hypothesis aes_block_length : forall key block,
  length key = KEY_SIZE -> length block = BLOCK_SIZE ->
  length (aes_encrypt_block key block) = BLOCK_SIZE.

Hypothesis aes_decrypt_encrypt : forall key block,
  length key = KEY_SIZE -> length block = BLOCK_SIZE ->
  aes_decrypt_block key (aes_encrypt_block key block) = block.

(** Encrypting and then decrypting, under passwords with the same
    prepared key. *)
Lemma decrypt_encrypt (iv : bytes) (data : Data) (key key' : bytes) :
  length iv = IV_SIZE ->
  prepareKey key' = prepareKey key ->
  (e <- encrypt iv data key ;; decrypt e key') = Ok (data_bytes data).
Proof.
  intros Hiv Hkeys. rewrite encrypt_staged by exact Hiv. cbn [bind].
  now apply decrypt_staged.
Qed.

(** C1. For every plaintext [P], password [K] and 16-byte IV, [encrypt]
    returns an envelope and [decrypt] of that envelope under [K] returns
    [P]. *)
Theorem decrypt_encrypt_roundtrip (iv P K : bytes) :
  length iv = 16 ->
  (e <- encrypt iv (DataBuffer P) K ;; decrypt e K) = Ok P.
Proof.
  intros Hiv. now apply (decrypt_encrypt iv (DataBuffer P) K K).
Qed.

(** C4. For every plaintext [P], password [K] and 16-byte IV, [encrypt]
    returns the IV followed by the CBC ciphertext of the padded [P]; the
    envelope starts with the IV, is at least 16 bytes long and has
    [16 + 16 * (length P / 16 + 1)] bytes. *)
Theorem encrypt_envelope_layout (iv P K : bytes) :
  length iv = 16 ->
  exists e,
    encrypt iv (DataBuffer P) K = Ok e
    /\ e = iv ++ cbc_encrypt (prepareKey K) iv (pkcs_pad P)
    /\ firstn 16 e = iv
    /\ 16 <= length e
    /\ length e = 16 + 16 * (length P / 16 + 1).
Proof.
  intros Hiv. eexists. split; [apply encrypt_staged; exact Hiv|].
  cbn [data_bytes].
  split; [now rewrite staged_ciphertext_cbc|].
  split; [apply firstn_app_exact; exact Hiv|].
  rewrite length_app, Hiv.
  rewrite (staged_ciphertext_length aes_block_length _ _ P (prepareKey_length K) Hiv).
  sizes.
Qed.

(** C5. Two runs of [encrypt] on the same plaintext and password whose
    16-byte IVs differ return two envelopes that differ, already in their
    first 16 bytes, and each of them decrypts to the plaintext. *)
Theorem encrypt_two_runs (iv1 iv2 P K : bytes) :
  length iv1 = 16 -> length iv2 = 16 -> iv1 <> iv2 ->
  exists e1 e2,
    encrypt iv1 (DataBuffer P) K = Ok e1
    /\ encrypt iv2 (DataBuffer P) K = Ok e2
    /\ e1 <> e2
    /\ firstn 16 e1 <> firstn 16 e2
    /\ decrypt e1 K = Ok P
    /\ decrypt e2 K = Ok P.
Proof.
  intros H1 H2 Hne.
  exists (envelope iv1 (DataBuffer P) K), (envelope iv2 (DataBuffer P) K).
  assert (Hpre : firstn 16 (envelope iv1 (DataBuffer P) K)
                 <> firstn 16 (envelope iv2 (DataBuffer P) K)).
  { unfold envelope.
    now rewrite (firstn_app_exact _ _ _ H1), (firstn_app_exact _ _ _ H2). }
  split; [apply encrypt_staged; exact H1|].
  split; [apply encrypt_staged; exact H2|].
  split; [intros Heq; apply Hpre; now rewrite Heq|].
  split; [exact Hpre|].
  split; now apply (decrypt_staged aes_block_length aes_decrypt_encrypt).
Qed.

(** C6. [encryptAsync] settles with the outcome of [encrypt] for the same
    IV, input and password, and [decryptAsync] with the outcome of
    [decrypt] for the same envelope and password, errors included; so
    with a 16-byte IV an envelope of [encryptAsync] decrypts to the
    plaintext under [decrypt], and an envelope of [encrypt] under
    [decryptAsync]. *)
Theorem async_sync_equivalence (iv : bytes) (data : Data) (E P K : bytes) :
  length iv = 16 ->
  encryptAsync iv data K = settled (encrypt iv data K)
  /\ awaited (decryptAsync E K) = settled (decrypt E K)
  /\ (exists e, encryptAsync iv (DataBuffer P) K = Resolved e
                /\ decrypt e K = Ok P)
  /\ (exists e, encrypt iv (DataBuffer P) K = Ok e
                /\ awaited (decryptAsync e K) = Resolved P).
Proof.
  intros Hiv.
  split; [apply encryptAsync_encrypt|].
  split; [apply decryptAsync_decrypt|].
  pose proof (decrypt_staged aes_block_length aes_decrypt_encrypt
                iv P K K Hiv eq_refl) as Hdec.
  split; exists (envelope iv (DataBuffer P) K).
  - rewrite encryptAsync_encrypt, encrypt_staged by exact Hiv. now split.
  - split; [apply encrypt_staged; exact Hiv|].
    rewrite decryptAsync_decrypt. unfold envelope. cbn [data_bytes].
    now rewrite Hdec.
Qed.

(** C9. Two passwords with the same prepared key are interchangeable: an
    envelope made under [K1] decrypts under [K2] to the plaintext. *)
Theorem decrypt_encrypt_same_prepared_key (iv P K1 K2 : bytes) :
  length iv = 16 ->
  prepareKey K1 = prepareKey K2 ->
  (e <- encrypt iv (DataBuffer P) K1 ;; decrypt e K2) = Ok P.
Proof.
  intros Hiv Hkeys.
  now apply (decrypt_encrypt iv (DataBuffer P) K1 K2).
Qed.

(** C10. Given a string, [encrypt] and [encryptAsync] encrypt the UTF-8
    bytes of the string: with a 16-byte IV, [encrypt] returns and
    [encryptAsync] resolves with the envelope they give on those bytes, the
    IV followed by the CBC encryption of the padded bytes.  [decrypt]
    returns the bytes, and the bytes decoded as UTF-8 are the string, with
    U+FFFD in place of each unpaired surrogate. *)
Theorem encrypt_string_utf8 (iv : bytes) (S : jsstring) (K : bytes) :
  length iv = 16 ->
  let e := iv ++ cbc_encrypt (prepareKey K) iv (pkcs_pad (utf8_bytes S)) in
  encrypt iv (DataString S) K = Ok e
  /\ encrypt iv (DataBuffer (utf8_bytes S)) K = Ok e
  /\ encryptAsync iv (DataString S) K = Resolved e
  /\ encryptAsync iv (DataBuffer (utf8_bytes S)) K = Resolved e
  /\ decrypt e K = Ok (utf8_bytes S)
  /\ (code_units S ->
      (d <- decrypt e K ;; Ok (toString_utf8 d)) = Ok (toWellFormed S)).
Proof.
  intros Hiv e.
  assert (Hs : encrypt iv (DataString S) K = Ok e).
  { rewrite encrypt_staged by exact Hiv. cbn [data_bytes].
    now rewrite staged_ciphertext_cbc. }
  assert (Hb : encrypt iv (DataBuffer (utf8_bytes S)) K = Ok e).
  { rewrite encrypt_staged by exact Hiv. cbn [data_bytes].
    now rewrite staged_ciphertext_cbc. }
  assert (Hd : decrypt e K = Ok (utf8_bytes S)).
  { unfold e. rewrite <- staged_ciphertext_cbc.
    now apply (decrypt_staged aes_block_length aes_decrypt_encrypt). }
  split; [exact Hs|]. split; [exact Hb|].
  split; [now rewrite encryptAsync_encrypt, Hs|].
  split; [now rewrite encryptAsync_encrypt, Hb|].
  split; [exact Hd|].
  intros Hunits. rewrite Hd. cbn [bind]. unfold toString_utf8.
  now rewrite utf8_decode_utf8_bytes.
Qed.

End ClaimLaws.

End Claims.

(** ** Decryption failures *)

(** On a message that ends with a 16-byte block, removing the padding from
    the message is removing it from that block. *)
Lemma pkcs_unpad_app (out block : bytes) :
  length block = BLOCK_SIZE ->
  pkcs_unpad (out ++ block) =
    match unpadblock block with
    | Ok t => Some (out ++ t)
    | Err _ => None
    end.
Proof.
  intros Hb. unfold pkcs_unpad, unpadblock. rewrite length_app, Hb.
  rewrite app_nth2 by sizes.
  replace (length out + BLOCK_SIZE - 1 - length out) with (BLOCK_SIZE - 1) by sizes.
  set (last := nth (BLOCK_SIZE - 1) block x00).
  set (k := Byte.to_nat last).
  destruct (k =? 0) eqn:E0; cbn [orb].
  { apply Nat.eqb_eq in E0. rewrite E0. reflexivity. }
  apply Nat.eqb_neq in E0.
  replace (1 <=? k) with true by (symmetry; apply Nat.leb_le; lia).
  destruct (BLOCK_SIZE <? k) eqn:E1.
  { apply Nat.ltb_lt in E1.
    replace (k <=? BLOCK_SIZE) with false by (symmetry; apply Nat.leb_gt; lia).
    reflexivity. }
  apply Nat.ltb_ge in E1.
  replace (k <=? BLOCK_SIZE) with true by (symmetry; apply Nat.leb_le; lia).
  replace (k <=? length out + BLOCK_SIZE) with true by (symmetry; apply Nat.leb_le; lia).
  cbn [andb].
  rewrite skipn_app, firstn_app.
  rewrite skipn_all2, firstn_all2 by lia.
  replace (length out + BLOCK_SIZE - k - length out) with (BLOCK_SIZE - k) by lia.
  cbn [app]. now destruct (forallb _ _).
Qed.

(** The only error of the padding check is the bad-decrypt error. *)
Lemma unpadblock_error (block : bytes) (e : crypto_error) :
  unpadblock block = Err e -> e = ERR_OSSL_BAD_DECRYPT.
Proof.
  unfold unpadblock.
  destruct (_ || _); [congruence|]. destruct (forallb _ _); congruence.
Qed.

Section Failures.

Context {aes : AES256}.

Lemma cbc_decrypt_loop_add (n m : nat) (key ch data : bytes) :
  cbc_decrypt_loop (n + m) key ch data =
    let r := cbc_decrypt_loop n key ch data in
    let r' := cbc_decrypt_loop m key (snd r) (skipn (BLOCK_SIZE * n) data) in
    (fst r ++ fst r', snd r').
Proof.
  revert ch data. induction n as [|n IH]; intros ch data.
  - cbv zeta. rewrite Nat.mul_0_r, skipn_O. cbn [Nat.add cbc_decrypt_loop fst snd app].
    now destruct (cbc_decrypt_loop m key ch data).
  - replace (S n + m) with (S (n + m)) by lia.
    rewrite !cbc_decrypt_loop_S. cbv zeta. rewrite IH. cbv zeta. cbn [fst snd].
    rewrite skipn_skipn.
    replace (BLOCK_SIZE * n + BLOCK_SIZE) with (BLOCK_SIZE * S n) by lia.
    now rewrite app_assoc.
Qed.

(** [decrypt] on an envelope of 16 bytes or more, stage by stage. *)
Lemma decrypt_stages (encryptedData key : bytes) :
  IV_SIZE <= length encryptedData ->
  let k := prepareKey key in
  let iv := firstn IV_SIZE encryptedData in
  let c := skipn IV_SIZE encryptedData in
  decrypt encryptedData key =
    if whole_blocks c then
      let n := length c / BLOCK_SIZE - 1 in
      let r := cbc_decrypt_loop n k iv c in
      t <- unpadblock (fst (cbc_decrypt_loop 1 k (snd r) (skipn (BLOCK_SIZE * n) c))) ;;
      Ok (fst r ++ t)
    else Err ERR_OSSL_WRONG_FINAL_BLOCK_LENGTH.
Proof.
  intros Hlen k iv c. unfold decrypt, createDecipheriv.
  rewrite subarray_prefix. fold iv. unfold Buffer.subarray_from. fold c.
  rewrite createCipheriv_ok by (unfold iv; rewrite length_firstn; lia).
  fold k. cbn [bind].
  unfold decipher_update. cbn [pending cipher_key chain app].
  unfold whole_blocks.
  destruct (length c mod BLOCK_SIZE =? 0) eqn:Emod.
  - apply Nat.eqb_eq in Emod.
    destruct (cbc_decrypt_loop (length c / BLOCK_SIZE - 1) k iv c) as [out ch] eqn:E.
    unfold decipher_final. cbn [pending cipher_key chain fst snd].
    rewrite length_skipn.
    destruct (0 <? length c) eqn:Epos; cbn [andb].
    + apply Nat.ltb_lt in Epos.
      replace (length c - BLOCK_SIZE * (length c / BLOCK_SIZE - 1) =? BLOCK_SIZE)
        with true by (symmetry; apply Nat.eqb_eq; sizes).
      cbn [negb].
      destruct (unpadblock _) as [t|e]; cbn [bind]; [|reflexivity].
      unfold Buffer.concat. cbn [concat]. now rewrite app_nil_r.
    + apply Nat.ltb_ge in Epos.
      replace (length c - BLOCK_SIZE * (length c / BLOCK_SIZE - 1) =? BLOCK_SIZE)
        with false by (symmetry; apply Nat.eqb_neq; sizes).
      reflexivity.
  - apply Nat.eqb_neq in Emod. rewrite andb_false_r.
    destruct (cbc_decrypt_loop (length c / BLOCK_SIZE) k iv c) as [out ch] eqn:E.
    unfold decipher_final. cbn [pending cipher_key chain fst snd].
    rewrite length_skipn.
    replace (length c - BLOCK_SIZE * (length c / BLOCK_SIZE) =? BLOCK_SIZE)
      with false by (symmetry; apply Nat.eqb_neq; sizes).
    reflexivity.
Qed.

(** From 16 bytes on, the IV taken from the envelope is accepted. *)
Lemma decrypt_long_envelope (encryptedData key : bytes) :
  IV_SIZE <= length encryptedData ->
  decrypt encryptedData key <> Err ERR_CRYPTO_INVALID_IV.
Proof.
  intros Hlen. rewrite decrypt_stages by exact Hlen. cbv zeta.
  destruct (whole_blocks _); [|discriminate].
  destruct (unpadblock _) as [t|e] eqn:Eu; cbn [bind]; [discriminate|].
  apply unpadblock_error in Eu. subst e. discriminate.
Qed.

(** C3. Whatever the password, [decrypt] on fewer than 16 bytes (so also on
    none, and on 15) fails with the invalid-IV error.  That error is not
    the error raised on bad padding, and [decrypt] raises it on no other
    input. *)
Theorem decrypt_short_envelope (encryptedData key : bytes) :
  length encryptedData < 16 ->
  decrypt encryptedData key = Err ERR_CRYPTO_INVALID_IV
  /\ ERR_CRYPTO_INVALID_IV <> ERR_OSSL_BAD_DECRYPT
  /\ (forall other, decrypt other key = Err ERR_CRYPTO_INVALID_IV -> length other < 16).
Proof.
  intros Hlen. split; [|split; [discriminate|]].
  - unfold decrypt, createDecipheriv.
    rewrite createCipheriv_bad_iv; [reflexivity|].
    rewrite subarray_prefix, length_firstn. sizes.
  - intros other Hother.
    destruct (le_lt_dec IV_SIZE (length other)) as [H|H]; [|exact H].
    exfalso. exact (decrypt_long_envelope other key H Hother).
Qed.

Section FailureLaws.

(** Under a 32-byte key AES decryption maps a block to a block. *)
Hypothesis aes_decrypt_block_length : forall key block,
  length key = KEY_SIZE -> length block = BLOCK_SIZE ->
  length (aes_decrypt_block key block) = BLOCK_SIZE.

Lemma cbc_decrypt_loop_length (n : nat) (key ch data : bytes) :
  length key = KEY_SIZE -> length ch = BLOCK_SIZE ->
  BLOCK_SIZE * n <= length data ->
  length (fst (cbc_decrypt_loop n key ch data)) = BLOCK_SIZE * n
  /\ length (snd (cbc_decrypt_loop n key ch data)) = BLOCK_SIZE.
Proof.
  intros Hkey. revert ch data.
  induction n as [|n IH]; intros ch data Hch Hlen.
  { cbn [cbc_decrypt_loop fst snd length]. split; [lia|exact Hch]. }
  rewrite cbc_decrypt_loop_S. cbv zeta. cbn [fst snd].
  assert (Hc : length (firstn BLOCK_SIZE data) = BLOCK_SIZE)
    by (rewrite length_firstn; sizes).
  destruct (IH (firstn BLOCK_SIZE data) (skipn BLOCK_SIZE data) Hc) as [H1 H2].
  { rewrite length_skipn. sizes. }
  rewrite length_app, H1, xor_bytes_length, aes_decrypt_block_length by assumption.
  split; [sizes|exact H2].
Qed.

(** [decrypt] on an envelope of 16 bytes or more: CBC decryption of the
    bytes after the IV and removal of the padding, when these bytes are
    whole blocks. *)
Lemma decrypt_spec (encryptedData key : bytes) :
  IV_SIZE <= length encryptedData ->
  let c := skipn IV_SIZE encryptedData in
  let m := cbc_decrypt (prepareKey key) (firstn IV_SIZE encryptedData) c in
  decrypt encryptedData key =
    if whole_blocks c then
      match pkcs_unpad m with
      | Some p => Ok p
      | None => Err ERR_OSSL_BAD_DECRYPT
      end
    else Err ERR_OSSL_WRONG_FINAL_BLOCK_LENGTH.
Proof.
  intros Hlen c m. rewrite decrypt_stages by exact Hlen. cbv zeta. fold c.
  destruct (whole_blocks c) eqn:Ew; [|reflexivity].
  unfold whole_blocks in Ew. apply andb_prop in Ew. destruct Ew as [Epos Emod].
  apply Nat.ltb_lt in Epos. apply Nat.eqb_eq in Emod.
  set (n := length c / BLOCK_SIZE - 1).
  assert (Hm : m = fst (cbc_decrypt_loop (n + 1) (prepareKey key)
                          (firstn IV_SIZE encryptedData) c)).
  { unfold m, cbc_decrypt. f_equal. f_equal. unfold n. sizes. }
  rewrite cbc_decrypt_loop_add in Hm. cbv zeta in Hm. cbn [fst] in Hm.
  destruct (cbc_decrypt_loop_length n (prepareKey key)
              (firstn IV_SIZE encryptedData) c (prepareKey_length key)) as [H1 H2];
    [rewrite length_firstn; sizes|unfold n; sizes|].
  destruct (cbc_decrypt_loop_length 1 (prepareKey key)
              (snd (cbc_decrypt_loop n (prepareKey key)
                      (firstn IV_SIZE encryptedData) c))
              (skipn (BLOCK_SIZE * n) c) (prepareKey_length key) H2) as [H3 _];
    [rewrite length_skipn; unfold n; sizes|].
  rewrite Hm, pkcs_unpad_app by sizes.
  destruct (unpadblock _) as [t|e] eqn:Eu; [reflexivity|].
  apply unpadblock_error in Eu. now subst e.
Qed.

(** C7. On an envelope of 16 bytes or more whose bytes after the IV are
    whole blocks, when the padding of their CBC decryption under the
    prepared key and that IV is invalid, [decrypt] fails with the
    bad-decrypt error.  When these bytes are not whole blocks it fails
    with the wrong-final-block-length error.  Whatever [decrypt] returns
    is the whole unpadded decryption: there is no partial output. *)
Theorem decrypt_invalid_padding (encryptedData key : bytes) :
  16 <= length encryptedData ->
  let c := skipn 16 encryptedData in
  let m := cbc_decrypt (prepareKey key) (firstn 16 encryptedData) c in
  (whole_blocks c = true -> pkcs_unpad m = None ->
     decrypt encryptedData key = Err ERR_OSSL_BAD_DECRYPT)
  /\ (whole_blocks c = false ->
        decrypt encryptedData key = Err ERR_OSSL_WRONG_FINAL_BLOCK_LENGTH)
  /\ (forall p, decrypt encryptedData key = Ok p ->
        whole_blocks c = true /\ pkcs_unpad m = Some p).
Proof.
  intros Hlen c m.
  pose proof (decrypt_spec encryptedData key Hlen) as H.
  cbv zeta in H. unfold IV_SIZE in H. fold c in H. fold m in H.
  split; [intros Hw Hp; now rewrite H, Hw, Hp|].
  split; [intros Hw; now rewrite H, Hw|].
  intros p Hp. rewrite H in Hp.
  destruct (whole_blocks c); [|discriminate].
  destruct (pkcs_unpad m); [|discriminate].
  injection Hp as ->. now split.
Qed.

End FailureLaws.

End Failures.

(** ** Passwords with the same prepared key *)

Lemma firstn_repeat (x : byte) (n m : nat) :
  firstn n (repeat x m) = repeat x (Nat.min n m).
Proof.
  revert m. induction n as [|n IH]; intros [|m]; cbn; try reflexivity.
  now rewrite IH.
Qed.

(** Zero bytes appended to a password shorter than 32 bytes do not change
    the prepared key. *)
Lemma prepareKey_app_zeros (key : bytes) (n : nat) :
  length key < KEY_SIZE -> prepareKey (key ++ repeat x00 n) = prepareKey key.
Proof.
  intros Hlen. rewrite (prepareKey_short key Hlen).
  destruct (le_lt_dec KEY_SIZE (length (key ++ repeat x00 n))) as [H|H].
  - rewrite prepareKey_long by exact H.
    rewrite length_app, repeat_length in H.
    rewrite firstn_app, firstn_all2, firstn_repeat by lia.
    f_equal. f_equal. lia.
  - rewrite prepareKey_short by exact H.
    rewrite length_app, repeat_length in *.
    rewrite <- app_assoc, <- repeat_app. f_equal. f_equal. lia.
Qed.

(** Passwords of 32 bytes or more with the same first 32 bytes have the same
    prepared key. *)
Lemma prepareKey_same_prefix (key key' : bytes) :
  KEY_SIZE <= length key -> KEY_SIZE <= length key' ->
  firstn KEY_SIZE key = firstn KEY_SIZE key' ->
  prepareKey key = prepareKey key'.
Proof.
  intros H H' Heq. now rewrite !prepareKey_long.
Qed.

(** ** [askQuestion] *)

Lemma jsstring_eqb_eq (a b : jsstring) : jsstring_eqb a b = true <-> a = b.
Proof.
  unfold jsstring_eqb. destruct (list_eq_dec N.eq_dec a b); split; congruence.
Qed.

Lemma includes_In (l : list jsstring) (x : jsstring) :
  includes l x = true <-> In x l.
Proof.
  unfold includes. rewrite existsb_exists. split.
  - intros [y [Hin Heq]]. apply jsstring_eqb_eq in Heq. now subst y.
  - intros Hin. exists x. split; [exact Hin|now apply jsstring_eqb_eq].
Qed.

Section PromptClaims.

Context {locale : Locale}.

(** The answer of [askQuestion] in terms of what [read] returned. *)
Lemma askQuestion_result (prompt : jsstring) (yes_arg : option (list jsstring))
    (line : jsstring) :
  let yes := accepted_tokens yes_arg in
  let result := read {| prompt := prompt; default := join (js "/") yes |} line in
  askQuestion prompt yes_arg line = true <->
  exists y, In y yes /\ toLocaleLowerCase result = toLocaleLowerCase y.
Proof.
  cbv zeta. unfold askQuestion.
  rewrite includes_In, in_map_iff. split.
  - intros [y [Heq Hin]]. exists y. now split.
  - intros [y [Hin Heq]]. exists y. now split.
Qed.

(** C8, amended. For every prompt and every token set (["yes"; "y"] when
    none is given): on a reply that is not empty [askQuestion] returns
    true exactly when the lower-cased reply is the lower-casing of a token;
    on the empty reply it returns true exactly when the lower-casing of
    the tokens joined by ["/"], which [read] substitutes for the empty
    reply, is the lower-casing of a token. *)
Theorem askQuestion_spec (prompt : jsstring) (yes_arg : option (list jsstring))
    (line : jsstring) :
  let yes := accepted_tokens yes_arg in
  (line <> [] ->
     (askQuestion prompt yes_arg line = true <->
      exists y, In y yes /\ toLocaleLowerCase line = toLocaleLowerCase y))
  /\ (askQuestion prompt yes_arg [] = true <->
      exists y, In y yes
                /\ toLocaleLowerCase (join (js "/") yes) = toLocaleLowerCase y).
Proof.
  cbv zeta. split.
  - intros Hline. rewrite askQuestion_result. cbv zeta.
    destruct line; [congruence|reflexivity].
  - rewrite askQuestion_result. reflexivity.
Qed.

End PromptClaims.

(** C8 as stated fails: with the single token ["oui"] the empty reply is
    accepted, although the lower-cased empty reply is not the lower-casing
    of a token. *)
Lemma askQuestion_empty_reply_accepted :
  @askQuestion ascii_locale (js "Continuer ?") (Some [js "oui"]) [] = true
  /\ ~ (exists y, In y [js "oui"]
                  /\ @toLocaleLowerCase ascii_locale [] = @toLocaleLowerCase ascii_locale y).
Proof.
  split; [reflexivity|].
  intros [y [[<-|[]] Heq]]. discriminate Heq.
Qed.

(** With the default tokens the empty reply is declined. *)
Example askQuestion_default_empty_reply :
  @askQuestion ascii_locale (js "Continue?") None [] = false.
Proof. reflexivity. Qed.

Example askQuestion_default_upper_case :
  @askQuestion ascii_locale (js "Continue?") None (js "YES") = true.
Proof. reflexivity. Qed.

(** ** AES-256 is a block permutation *)

Lemma to_bits_byte_xor (a b : byte) :
  Byte.to_bits (byte_xor a b) =
    let '(a0, (a1, (a2, (a3, (a4, (a5, (a6, a7))))))) := Byte.to_bits a in
    let '(b0, (b1, (b2, (b3, (b4, (b5, (b6, b7))))))) := Byte.to_bits b in
    (xorb a0 b0, (xorb a1 b1, (xorb a2 b2, (xorb a3 b3,
    (xorb a4 b4, (xorb a5 b5, (xorb a6 b6, xorb a7 b7))))))).
Proof.
  unfold byte_xor.
  destruct (Byte.to_bits a) as [a0 [a1 [a2 [a3 [a4 [a5 [a6 a7]]]]]]].
  destruct (Byte.to_bits b) as [b0 [b1 [b2 [b3 [b4 [b5 [b6 b7]]]]]]].
  apply Byte.to_bits_of_bits.
Qed.

Lemma to_bits_xtime (a : byte) :
  Byte.to_bits (AES.xtime a) =
    let '(b0, (b1, (b2, (b3, (b4, (b5, (b6, b7))))))) := Byte.to_bits a in
    (b7, (xorb b0 b7, (b1, (xorb b2 b7, (xorb b3 b7, (b4, (b5, b6))))))).
Proof.
  unfold AES.xtime.
  destruct (Byte.to_bits a) as [a0 [a1 [a2 [a3 [a4 [a5 [a6 a7]]]]]]].
  apply Byte.to_bits_of_bits.
Qed.

Lemma to_bits_inj (a b : byte) : Byte.to_bits a = Byte.to_bits b -> a = b.
Proof.
  intros H. rewrite <- (Byte.of_bits_to_bits a), <- (Byte.of_bits_to_bits b). now rewrite H.
Qed.

Lemma inv_mix_column_mix_column (a0 a1 a2 a3 : byte) :
  AES.inv_mix_column
    (AES.xor4 (AES.mul2 a0) (AES.mul3 a1) a2 a3)
    (AES.xor4 a0 (AES.mul2 a1) (AES.mul3 a2) a3)
    (AES.xor4 a0 a1 (AES.mul2 a2) (AES.mul3 a3))
    (AES.xor4 (AES.mul3 a0) a1 a2 (AES.mul2 a3)) = [a0; a1; a2; a3].
Proof.
  unfold AES.inv_mix_column.
  repeat f_equal; apply to_bits_inj;
    unfold AES.xor4, AES.mul14, AES.mul13, AES.mul11, AES.mul9, AES.mul3, AES.mul2;
    repeat (rewrite ?to_bits_byte_xor, ?to_bits_xtime);
    destruct (Byte.to_bits a0) as [? [? [? [? [? [? [? ?]]]]]]];
    destruct (Byte.to_bits a1) as [? [? [? [? [? [? [? ?]]]]]]];
    destruct (Byte.to_bits a2) as [? [? [? [? [? [? [? ?]]]]]]];
    destruct (Byte.to_bits a3) as [? [? [? [? [? [? [? ?]]]]]]];
    repeat (f_equal; try btauto).
Qed.

Lemma inv_sbox_sbox (b : byte) : AES.inv_sbox (AES.sbox b) = b.
Proof. destruct b; reflexivity. Qed.

Lemma inv_sub_bytes_sub_bytes (s : bytes) : AES.inv_sub_bytes (AES.sub_bytes s) = s.
Proof.
  unfold AES.inv_sub_bytes, AES.sub_bytes. rewrite map_map.
  rewrite <- (map_id s) at 2. apply map_ext. exact inv_sbox_sbox.
Qed.

(** A buffer of 16 bytes, byte by byte. *)
Ltac sixteen s H :=
  do 16 (destruct s as [|? s]; [discriminate H|]);
  destruct s; [clear H|discriminate H].

Lemma inv_shift_rows_shift_rows (s : bytes) :
  length s = 16 -> AES.inv_shift_rows (AES.shift_rows s) = s.
Proof. intros H. sixteen s H. reflexivity. Qed.

Lemma inv_mix_columns_mix_columns (s : bytes) :
  length s = 16 -> AES.inv_mix_columns (AES.mix_columns s) = s.
Proof.
  intros H. sixteen s H.
  unfold AES.mix_columns, AES.mix_column. cbn [app]. unfold AES.inv_mix_columns.
  now rewrite !inv_mix_column_mix_column.
Qed.

Lemma sub_bytes_length (s : bytes) : length (AES.sub_bytes s) = length s.
Proof. apply length_map. Qed.

Lemma inv_sub_bytes_length (s : bytes) : length (AES.inv_sub_bytes s) = length s.
Proof. apply length_map. Qed.

Lemma shift_rows_length (s : bytes) : length s = 16 -> length (AES.shift_rows s) = 16.
Proof. intros H. sixteen s H. reflexivity. Qed.

Lemma inv_shift_rows_length (s : bytes) : length s = 16 -> length (AES.inv_shift_rows s) = 16.
Proof. intros H. sixteen s H. reflexivity. Qed.

Lemma mix_columns_length (s : bytes) : length s = 16 -> length (AES.mix_columns s) = 16.
Proof. intros H. sixteen s H. reflexivity. Qed.

Lemma inv_mix_columns_length (s : bytes) : length s = 16 -> length (AES.inv_mix_columns s) = 16.
Proof. intros H. sixteen s H. reflexivity. Qed.

Lemma round_key_length (ws : list AES.word) (r : nat) : length (AES.round_key ws r) = 16.
Proof.
  unfold AES.round_key.
  destruct (nth (4 * r) ws _) as [[[? ?] ?] ?].
  destruct (nth (4 * r + 1) ws _) as [[[? ?] ?] ?].
  destruct (nth (4 * r + 2) ws _) as [[[? ?] ?] ?].
  destruct (nth (4 * r + 3) ws _) as [[[? ?] ?] ?].
  reflexivity.
Qed.

Lemma add_round_key_length (ws : list AES.word) (r : nat) (s : bytes) :
  length s = 16 -> length (AES.add_round_key s (AES.round_key ws r)) = 16.
Proof.
  intros H. unfold AES.add_round_key.
  rewrite xor_bytes_length, round_key_length, H. reflexivity.
Qed.

Lemma add_round_key_cancel (ws : list AES.word) (r : nat) (s : bytes) :
  length s = 16 ->
  AES.add_round_key (AES.add_round_key s (AES.round_key ws r)) (AES.round_key ws r) = s.
Proof.
  intros H. apply xor_bytes_cancel. rewrite round_key_length, H. reflexivity.
Qed.

Lemma round_length (ws : list AES.word) (s : bytes) (r : nat) :
  length s = 16 -> length (AES.round ws s r) = 16.
Proof.
  intros H. unfold AES.round.
  apply add_round_key_length, mix_columns_length, shift_rows_length.
  now rewrite sub_bytes_length.
Qed.

Lemma inv_round_length (ws : list AES.word) (s : bytes) (r : nat) :
  length s = 16 -> length (AES.inv_round ws s r) = 16.
Proof.
  intros H. unfold AES.inv_round.
  apply inv_mix_columns_length, add_round_key_length.
  rewrite inv_sub_bytes_length. now apply inv_shift_rows_length.
Qed.

Lemma rounds_length (ws : list AES.word) (rs : list nat) (s : bytes) :
  length s = 16 -> length (fold_left (AES.round ws) rs s) = 16.
Proof.
  revert s. induction rs as [|r rs IH]; intros s H; [exact H|].
  cbn [fold_left]. apply IH. now apply round_length.
Qed.

Lemma inv_rounds_length (ws : list AES.word) (rs : list nat) (s : bytes) :
  length s = 16 -> length (fold_left (AES.inv_round ws) rs s) = 16.
Proof.
  revert s. induction rs as [|r rs IH]; intros s H; [exact H|].
  cbn [fold_left]. apply IH. now apply inv_round_length.
Qed.

(** An inverse round undoes a round, seen through the substitution and the
    row shift that follow the round. *)
Lemma inv_round_round (ws : list AES.word) (s : bytes) (r : nat) :
  length s = 16 ->
  AES.inv_round ws (AES.shift_rows (AES.sub_bytes (AES.round ws s r))) r =
    AES.shift_rows (AES.sub_bytes s).
Proof.
  intros H. unfold AES.inv_round.
  rewrite inv_shift_rows_shift_rows
    by (rewrite sub_bytes_length; now apply round_length).
  rewrite inv_sub_bytes_sub_bytes. unfold AES.round.
  assert (Hm : length (AES.mix_columns (AES.shift_rows (AES.sub_bytes s))) = 16).
  { apply mix_columns_length, shift_rows_length. now rewrite sub_bytes_length. }
  rewrite add_round_key_cancel by exact Hm.
  apply inv_mix_columns_mix_columns, shift_rows_length. now rewrite sub_bytes_length.
Qed.

Lemma inv_rounds_rounds (ws : list AES.word) (rs : list nat) (s : bytes) :
  length s = 16 ->
  fold_left (AES.inv_round ws) (rev rs)
    (AES.shift_rows (AES.sub_bytes (fold_left (AES.round ws) rs s))) =
    AES.shift_rows (AES.sub_bytes s).
Proof.
  revert s. induction rs as [|r rs IH]; intros s H; [reflexivity|].
  cbn [fold_left rev]. rewrite fold_left_app. cbn [fold_left].
  rewrite IH by now apply round_length.
  now apply inv_round_round.
Qed.

Lemma aes256_block_length (key block : bytes) :
  length key = KEY_SIZE -> length block = BLOCK_SIZE ->
  length (@aes_encrypt_block aes256 key block) = BLOCK_SIZE.
Proof.
  intros _ H. cbn [aes_encrypt_block aes256]. unfold AES.cipher, BLOCK_SIZE in *.
  apply add_round_key_length, shift_rows_length.
  rewrite sub_bytes_length. apply rounds_length. now apply add_round_key_length.
Qed.

Lemma aes256_decrypt_block_length (key block : bytes) :
  length key = KEY_SIZE -> length block = BLOCK_SIZE ->
  length (@aes_decrypt_block aes256 key block) = BLOCK_SIZE.
Proof.
  intros _ H. cbn [aes_decrypt_block aes256]. unfold AES.inv_cipher, BLOCK_SIZE in *.
  apply add_round_key_length. rewrite inv_sub_bytes_length.
  apply inv_shift_rows_length, inv_rounds_length. now apply add_round_key_length.
Qed.

Lemma aes256_decrypt_encrypt (key block : bytes) :
  length key = KEY_SIZE -> length block = BLOCK_SIZE ->
  @aes_decrypt_block aes256 key (@aes_encrypt_block aes256 key block) = block.
Proof.
  intros _ H. cbn [aes_encrypt_block aes_decrypt_block aes256].
  unfold AES.inv_cipher, AES.cipher, BLOCK_SIZE in *.
  set (ws := AES.key_expansion key).
  set (s0 := AES.add_round_key block (AES.round_key ws 0)).
  assert (H0 : length s0 = 16) by now apply add_round_key_length.
  rewrite add_round_key_cancel
    by (apply shift_rows_length; rewrite sub_bytes_length; now apply rounds_length).
  rewrite inv_rounds_rounds by exact H0.
  rewrite inv_shift_rows_shift_rows by now rewrite sub_bytes_length.
  rewrite inv_sub_bytes_sub_bytes.
  now apply add_round_key_cancel.
Qed.

(** With AES-256 itself the round trip needs no assumption on the cipher:
    for every input, every 16-byte IV and every two passwords with the same
    prepared key. *)
Lemma decrypt_encrypt_aes256 (iv : bytes) (data : Data) (key key' : bytes) :
  length iv = IV_SIZE ->
  prepareKey key' = prepareKey key ->
  (e <- @encrypt aes256 iv data key ;; @decrypt aes256 e key') = Ok (data_bytes data).
Proof.
  apply (@decrypt_encrypt aes256 aes256_block_length aes256_decrypt_encrypt).
Qed.

(** ** Known answers

    The block cipher on the example of FIPS 197 (appendix C.3), the chaining
    on the CBC-AES256 example of NIST SP 800-38A (F.2.5), and [encrypt] and
    [decrypt] on the inputs of [test.ts], with the ciphertext OpenSSL gives
    for them. *)

Example aes256_fips197 :
  AES.cipher (hex "000102030405060708090a0b0c0d0e0f101112131415161718191a1b1c1d1e1f")
             (hex "00112233445566778899aabbccddeeff")
  = hex "8ea2b7ca516745bfeafc49904b496089".
Proof. vm_compute. reflexivity. Qed.

Example aes256_fips197_inverse :
  AES.inv_cipher (hex "000102030405060708090a0b0c0d0e0f101112131415161718191a1b1c1d1e1f")
                 (hex "8ea2b7ca516745bfeafc49904b496089")
  = hex "00112233445566778899aabbccddeeff".
Proof. vm_compute. reflexivity. Qed.

Example cbc_aes256_sp800_38a :
  @cbc_encrypt aes256
    (hex "603deb1015ca71be2b73aef0857d77811f352c073b6108d72d9810a30914dff4")
    (hex "000102030405060708090a0b0c0d0e0f")
    (hex "6bc1bee22e409f96e93d7e117393172aae2d8a571e03ac9c9eb76fac45af8e5130c81c46a35ce411e5fbc1191a0a52eff69f2445df4f9b17ad2b417be66c3710")
  = hex "f58c4c04d6e5f1ba779eabfb5f7bfbd69cfc4e967edb808d679f777bc6702c7d39f23369a9d9bacfa530e26304231461b2eb05e2c39be9fcda6c19078c6a9d1b".
Proof. vm_compute. reflexivity. Qed.

Example encrypt_test_message :
  @encrypt aes256 test_iv (DataBuffer test_message) test_key
  = Ok (hex "000102030405060708090a0b0c0d0e0fc6fac8029c524b6baf947a276c5487b0").
Proof. vm_compute. reflexivity. Qed.

Example decrypt_test_message :
  @decrypt aes256 (hex "000102030405060708090a0b0c0d0e0fc6fac8029c524b6baf947a276c5487b0")
    test_key
  = Ok test_message.
Proof. vm_compute. reflexivity. Qed.

Example encrypt_whole_block_message :
  @encrypt aes256 test_iv (DataBuffer (ascii_bytes "Hello, Francis!!")) test_key
  = Ok (hex "000102030405060708090a0b0c0d0e0f809d86549ed750ee28898d3df051cb4dfd641b6fb09660ac7cf1785219fb6f76").
Proof. vm_compute. reflexivity. Qed.

Example encrypt_string_message :
  @encrypt aes256 test_iv (DataString [0xE9; 0x20AC; 0xD83D; 0xDE00]%N) test_key
  = Ok (hex "000102030405060708090a0b0c0d0e0fc74e9a330a2b2eb67b641455a6a404ad").
Proof. vm_compute. reflexivity. Qed.

Example decrypt_zero_block :
  @decrypt aes256 zero_block_envelope test_key = Err ERR_OSSL_BAD_DECRYPT.
Proof. vm_compute. reflexivity. Qed.

Example decrypt_broken_block :
  @decrypt aes256 (test_iv ++ repeat x00 17) test_key = Err ERR_OSSL_WRONG_FINAL_BLOCK_LENGTH.
Proof. vm_compute. reflexivity. Qed.

Example decrypt_iv_only :
  @decrypt aes256 test_iv test_key = Err ERR_OSSL_WRONG_FINAL_BLOCK_LENGTH.
Proof. vm_compute. reflexivity. Qed.

(** ** The claims on concrete inputs *)

Lemma decrypt_encrypt_roundtrip_witness :
  length test_iv = 16
  /\ (e <- @encrypt aes256 test_iv (DataBuffer test_message) test_key ;;
      @decrypt aes256 e test_key) = Ok test_message.
Proof.
  split; [reflexivity|].
  apply (@decrypt_encrypt_roundtrip aes256 aes256_block_length aes256_decrypt_encrypt).
  reflexivity.
Defined.

Lemma decrypt_short_envelope_witness :
  length (repeat x00 15) < 16
  /\ @decrypt aes256 (repeat x00 15) test_key = Err ERR_CRYPTO_INVALID_IV
  /\ @decrypt aes256 [] test_key = Err ERR_CRYPTO_INVALID_IV.
Proof.
  split; [cbn; lia|].
  split.
  - apply (@decrypt_short_envelope aes256 (repeat x00 15) test_key). cbn. lia.
  - apply (@decrypt_short_envelope aes256 [] test_key). cbn. lia.
Defined.

Lemma encrypt_envelope_layout_witness :
  length test_iv = 16
  /\ exists e,
       @encrypt aes256 test_iv (DataBuffer test_message) test_key = Ok e
       /\ e = test_iv ++ @cbc_encrypt aes256 (prepareKey test_key) test_iv
                           (pkcs_pad test_message)
       /\ firstn 16 e = test_iv
       /\ 16 <= length e
       /\ length e = 16 + 16 * (length test_message / 16 + 1).
Proof.
  split; [reflexivity|].
  apply (@encrypt_envelope_layout aes256 aes256_block_length). reflexivity.
Defined.

Lemma encrypt_two_runs_witness :
  length test_iv = 16 /\ length test_iv' = 16 /\ test_iv <> test_iv'
  /\ exists e1 e2,
       @encrypt aes256 test_iv (DataBuffer test_message) test_key = Ok e1
       /\ @encrypt aes256 test_iv' (DataBuffer test_message) test_key = Ok e2
       /\ e1 <> e2
       /\ firstn 16 e1 <> firstn 16 e2
       /\ @decrypt aes256 e1 test_key = Ok test_message
       /\ @decrypt aes256 e2 test_key = Ok test_message.
Proof.
  split; [reflexivity|]. split; [reflexivity|]. split; [discriminate|].
  apply (@encrypt_two_runs aes256 aes256_block_length aes256_decrypt_encrypt);
    [reflexivity|reflexivity|discriminate].
Defined.

Lemma async_sync_equivalence_witness :
  length test_iv = 16
  /\ @encryptAsync aes256 test_iv (DataString (js "Hello, Francis!")) test_key =
       settled (@encrypt aes256 test_iv (DataString (js "Hello, Francis!")) test_key)
  /\ awaited (@decryptAsync aes256 zero_block_envelope test_key) =
       settled (@decrypt aes256 zero_block_envelope test_key)
  /\ (exists e, @encryptAsync aes256 test_iv (DataBuffer test_message) test_key = Resolved e
                /\ @decrypt aes256 e test_key = Ok test_message)
  /\ (exists e, @encrypt aes256 test_iv (DataBuffer test_message) test_key = Ok e
                /\ awaited (@decryptAsync aes256 e test_key) = Resolved test_message).
Proof.
  split; [reflexivity|].
  apply (@async_sync_equivalence aes256 aes256_block_length aes256_decrypt_encrypt).
  reflexivity.
Defined.

Lemma decrypt_invalid_padding_witness :
  16 <= length zero_block_envelope
  /\ whole_blocks (skipn 16 zero_block_envelope) = true
  /\ pkcs_unpad (@cbc_decrypt aes256 (prepareKey test_key) (firstn 16 zero_block_envelope)
                   (skipn 16 zero_block_envelope)) = None
  /\ @decrypt aes256 zero_block_envelope test_key = Err ERR_OSSL_BAD_DECRYPT.
Proof.
  split; [cbn; lia|]. split; [reflexivity|]. split; [reflexivity|].
  apply (@decrypt_invalid_padding aes256 aes256_decrypt_block_length
           zero_block_envelope test_key); [cbn; lia|reflexivity|reflexivity].
Defined.

Lemma decrypt_encrypt_same_prepared_key_witness :
  length test_iv = 16
  /\ prepareKey test_key = prepareKey (test_key ++ [x00; x00; x00])
  /\ (e <- @encrypt aes256 test_iv (DataBuffer test_message) test_key ;;
      @decrypt aes256 e (test_key ++ [x00; x00; x00])) = Ok test_message.
Proof.
  split; [reflexivity|]. split; [reflexivity|].
  apply (@decrypt_encrypt_same_prepared_key aes256 aes256_block_length aes256_decrypt_encrypt);
    reflexivity.
Defined.

Lemma encrypt_string_utf8_witness :
  length test_iv = 16
  /\ code_units [0xE9; 0x20AC; 0xD83D; 0xDE00]%N
  /\ utf8_bytes [0xE9; 0x20AC; 0xD83D; 0xDE00]%N
     = [xc3; xa9; xe2; x82; xac; xf0; x9f; x98; x80]
  /\ test_iv ++ @cbc_encrypt aes256 (prepareKey test_key) test_iv
                  (pkcs_pad (utf8_bytes [0xE9; 0x20AC; 0xD83D; 0xDE00]%N))
     = hex "000102030405060708090a0b0c0d0e0fc74e9a330a2b2eb67b641455a6a404ad"
  /\ (let e := test_iv ++ @cbc_encrypt aes256 (prepareKey test_key) test_iv
                             (pkcs_pad (utf8_bytes [0xE9; 0x20AC; 0xD83D; 0xDE00]%N)) in
      @encrypt aes256 test_iv (DataString [0xE9; 0x20AC; 0xD83D; 0xDE00]%N) test_key = Ok e
      /\ @encrypt aes256 test_iv
           (DataBuffer (utf8_bytes [0xE9; 0x20AC; 0xD83D; 0xDE00]%N)) test_key = Ok e
      /\ @encryptAsync aes256 test_iv (DataString [0xE9; 0x20AC; 0xD83D; 0xDE00]%N) test_key
         = Resolved e
      /\ @encryptAsync aes256 test_iv
           (DataBuffer (utf8_bytes [0xE9; 0x20AC; 0xD83D; 0xDE00]%N)) test_key = Resolved e
      /\ @decrypt aes256 e test_key = Ok (utf8_bytes [0xE9; 0x20AC; 0xD83D; 0xDE00]%N)
      /\ (d <- @decrypt aes256 e test_key ;; Ok (toString_utf8 d))
         = Ok (toWellFormed [0xE9; 0x20AC; 0xD83D; 0xDE00]%N)).
Proof.
  assert (Hunits : code_units [0xE9; 0x20AC; 0xD83D; 0xDE00]%N)
    by (repeat constructor).
  split; [reflexivity|]. split; [exact Hunits|]. split; [reflexivity|].
  split; [vm_compute; reflexivity|].
  destruct (@encrypt_string_utf8 aes256 aes256_block_length aes256_decrypt_encrypt
              test_iv [0xE9; 0x20AC; 0xD83D; 0xDE00]%N test_key eq_refl)
    as (H1 & H2 & H3 & H4 & H5 & H6).
  cbv zeta.
  split; [exact H1|]. split; [exact H2|]. split; [exact H3|]. split; [exact H4|].
  split; [exact H5|]. exact (H6 Hunits).
Defined.

(** * Further properties of the library *)

(** ** Exclusive-or *)

Lemma byte_xor_assoc (a b c : byte) :
  byte_xor (byte_xor a b) c = byte_xor a (byte_xor b c).
Proof.
  apply to_bits_inj. rewrite !to_bits_byte_xor.
  destruct (Byte.to_bits a) as [? [? [? [? [? [? [? ?]]]]]]].
  destruct (Byte.to_bits b) as [? [? [? [? [? [? [? ?]]]]]]].
  destruct (Byte.to_bits c) as [? [? [? [? [? [? [? ?]]]]]]].
  now rewrite !xorb_assoc.
Qed.

Lemma xor_bytes_assoc (a b c : bytes) :
  xor_bytes (xor_bytes a b) c = xor_bytes a (xor_bytes b c).
Proof.
  revert b c. induction a as [|x a IH]; intros [|y b] [|z c]; cbn; try reflexivity.
  now rewrite byte_xor_assoc, IH.
Qed.


(** ** [prepareKey] *)

(** X1. Preparing a prepared key changes nothing. *)
Theorem prepareKey_idempotent (key : bytes) :
  prepareKey (prepareKey key) = prepareKey key.
Proof.
  rewrite prepareKey_long by (rewrite prepareKey_length; lia).
  rewrite <- (prepareKey_length key) at 1. apply firstn_all.
Qed.

Lemma firstn_prepareKey (key : bytes) :
  length key <= KEY_SIZE -> firstn (length key) (prepareKey key) = key.
Proof.
  intros H. destruct (Nat.eq_dec (length key) KEY_SIZE) as [E|E].
  - rewrite prepareKey_long by lia. rewrite E, firstn_firstn, Nat.min_id, <- E.
    apply firstn_all.
  - rewrite prepareKey_short by lia. now apply firstn_app_exact.
Qed.

(** X2. Two passwords of the same length, of 32 bytes at most, that have the
    same prepared key are the same password. *)
Theorem prepareKey_injective_same_length (key key' : bytes) :
  length key = length key' -> length key <= 32 ->
  prepareKey key = prepareKey key' -> key = key'.
Proof.
  intros Hlen Hmax Heq.
  rewrite <- (firstn_prepareKey key), <- (firstn_prepareKey key')
    by (unfold KEY_SIZE; lia).
  now rewrite Heq, Hlen.
Qed.

(** ** Failures of [encrypt] and [decrypt] *)

Section MoreFailures.

Context {aes : AES256}.

(** X3. [encrypt] fails only when the IV it is given does not have 16 bytes,
    and then with the invalid-IV error: with the 16 bytes of [randomBytes]
    it returns an envelope for every input and every password. *)
Theorem encrypt_failure (iv : bytes) (data : Data) (key : bytes) (e : crypto_error) :
  encrypt iv data key = Err e <-> length iv <> 16 /\ e = ERR_CRYPTO_INVALID_IV.
Proof.
  destruct (Nat.eq_dec (length iv) 16) as [H|H].
  - rewrite encrypt_staged by exact H. split; [discriminate|intros [? _]; contradiction].
  - unfold encrypt. rewrite createCipheriv_bad_iv by exact H. cbn [bind].
    split; [intros [= <-]; now split|intros [_ ->]; reflexivity].
Qed.

(** X4. [decrypt] never fails with the unknown-cipher or the
    invalid-key-length error, whatever the password: its errors are the
    invalid-IV error, on fewer than 16 bytes, the wrong-final-block-length
    error, when the bytes after the IV are not one or more whole blocks, and
    the bad-decrypt error otherwise. *)
Theorem decrypt_error_kinds (encryptedData key : bytes) (e : crypto_error) :
  decrypt encryptedData key = Err e ->
  (length encryptedData < 16 /\ e = ERR_CRYPTO_INVALID_IV)
  \/ (16 <= length encryptedData /\ whole_blocks (skipn 16 encryptedData) = false
      /\ e = ERR_OSSL_WRONG_FINAL_BLOCK_LENGTH)
  \/ (16 <= length encryptedData /\ whole_blocks (skipn 16 encryptedData) = true
      /\ e = ERR_OSSL_BAD_DECRYPT).
Proof.
  intros H. destruct (le_lt_dec 16 (length encryptedData)) as [Hlen|Hlen].
  - right. rewrite decrypt_stages in H by exact Hlen. cbv zeta in H.
    unfold IV_SIZE in H.
    destruct (whole_blocks (skipn 16 encryptedData)); [right|left].
    + destruct (unpadblock _) as [t|e'] eqn:Eu; cbn [bind] in H; [discriminate|].
      apply unpadblock_error in Eu. subst e'. injection H as <-. now repeat split.
    + injection H as <-. now repeat split.
  - left. split; [exact Hlen|].
    unfold decrypt, createDecipheriv in H.
    rewrite createCipheriv_bad_iv in H
      by (rewrite subarray_prefix, length_firstn; sizes).
    cbn [bind] in H. now injection H as <-.
Qed.

End MoreFailures.


(** ** Lengths *)

Lemma unpadblock_ok (block t : bytes) :
  unpadblock block = Ok t ->
  exists k, 1 <= k <= BLOCK_SIZE /\ t = firstn (BLOCK_SIZE - k) block.
Proof.
  unfold unpadblock.
  set (k := Byte.to_nat (nth (BLOCK_SIZE - 1) block x00)).
  destruct (k =? 0) eqn:E0; cbn [orb]; [discriminate|].
  destruct (BLOCK_SIZE <? k) eqn:E1; [discriminate|].
  destruct (forallb _ _); [|discriminate].
  intros [= <-]. exists k.
  apply Nat.eqb_neq in E0. apply Nat.ltb_ge in E1. split; [lia|reflexivity].
Qed.

Section MoreLengths.

Context {aes : AES256}.

Hypothesis aes_decrypt_block_length : forall key block,
  length key = KEY_SIZE -> length block = BLOCK_SIZE ->
  length (aes_decrypt_block key block) = BLOCK_SIZE.

(** X5. When [decrypt] returns a plaintext, the envelope has 32 bytes or
    more, a multiple of 16, and the plaintext is shorter than the envelope by
    17 to 32 bytes: the IV and 1 to 16 bytes of padding. *)
Theorem decrypt_success_lengths (encryptedData key plaintext : bytes) :
  decrypt encryptedData key = Ok plaintext ->
  32 <= length encryptedData
  /\ length encryptedData mod 16 = 0
  /\ length plaintext + 17 <= length encryptedData
  /\ length encryptedData <= length plaintext + 32.
Proof.
  intros H.
  destruct (le_lt_dec 16 (length encryptedData)) as [Hlen|Hlen].
  2:{ unfold decrypt, createDecipheriv in H.
      rewrite createCipheriv_bad_iv in H
        by (rewrite subarray_prefix, length_firstn; sizes).
      discriminate H. }
  rewrite decrypt_stages in H by exact Hlen. cbv zeta in H.
  set (c := skipn IV_SIZE encryptedData) in *.
  set (iv := firstn IV_SIZE encryptedData) in *.
  assert (Hc : length c = length encryptedData - 16) by (unfold c; apply length_skipn).
  assert (Hiv : length iv = BLOCK_SIZE) by (unfold iv; rewrite length_firstn; sizes).
  destruct (whole_blocks c) eqn:Ew; [|discriminate].
  unfold whole_blocks in Ew. apply andb_prop in Ew. destruct Ew as [Epos Emod].
  apply Nat.ltb_lt in Epos. apply Nat.eqb_eq in Emod.
  set (n := length c / BLOCK_SIZE - 1) in *.
  destruct (cbc_decrypt_loop_length aes_decrypt_block_length n (prepareKey key)
              iv c (prepareKey_length key) Hiv) as [H1 H2]; [unfold n; sizes|].
  destruct (cbc_decrypt_loop_length aes_decrypt_block_length 1 (prepareKey key)
              (snd (cbc_decrypt_loop n (prepareKey key) iv c))
              (skipn (BLOCK_SIZE * n) c) (prepareKey_length key) H2) as [H3 _];
    [rewrite length_skipn; unfold n; sizes|].
  destruct (unpadblock _) as [t|e] eqn:Eu; cbn [bind] in H; [|discriminate].
  injection H as <-.
  apply unpadblock_ok in Eu. destruct Eu as [k [Hk ->]].
  rewrite length_app, H1, length_firstn, H3.
  unfold n. sizes.
Qed.

(** The first block of a CBC decryption is the only place where the IV is
    used. *)
Lemma cbc_decrypt_loop_xor_iv (n : nat) (key iv d data : bytes) :
  length key = KEY_SIZE -> length iv = BLOCK_SIZE -> length d = BLOCK_SIZE ->
  BLOCK_SIZE * S n <= length data ->
  cbc_decrypt_loop (S n) key (xor_bytes iv d) data =
    (xor_bytes (firstn BLOCK_SIZE (fst (cbc_decrypt_loop (S n) key iv data))) d
       ++ skipn BLOCK_SIZE (fst (cbc_decrypt_loop (S n) key iv data)),
     snd (cbc_decrypt_loop (S n) key iv data)).
Proof.
  intros Hkey Hiv Hd Hlen. rewrite !cbc_decrypt_loop_S. cbv zeta. cbn [fst snd].
  set (p := xor_bytes (aes_decrypt_block key (firstn BLOCK_SIZE data)) iv).
  assert (Hp : length p = BLOCK_SIZE).
  { unfold p. rewrite xor_bytes_length, aes_decrypt_block_length, Hiv;
      [apply Nat.min_id|exact Hkey|rewrite length_firstn; sizes]. }
  rewrite (firstn_app_exact _ _ _ Hp), (skipn_app_exact _ _ _ Hp).
  unfold p. now rewrite xor_bytes_assoc.
Qed.

(** X6. [decrypt] does not notice a modified IV: when an envelope with two
    or more blocks after the IV decrypts to a plaintext, the envelope
    whose IV is xor-ed with 16 bytes [d] decrypts to that plaintext with its
    first 16 bytes xor-ed with [d]. *)
Theorem decrypt_modified_iv (iv d c key plaintext : bytes) :
  length iv = 16 -> length d = 16 -> 32 <= length c ->
  decrypt (iv ++ c) key = Ok plaintext ->
  decrypt (xor_bytes iv d ++ c) key =
    Ok (xor_bytes (firstn 16 plaintext) d ++ skipn 16 plaintext).
Proof.
  intros Hiv Hd Hc H.
  assert (Hiv' : length (xor_bytes iv d) = IV_SIZE)
    by (rewrite xor_bytes_length, Hiv, Hd; reflexivity).
  rewrite decrypt_stages in H by (rewrite length_app; sizes).
  rewrite decrypt_stages by (rewrite length_app; sizes).
  cbv zeta in *.
  rewrite (firstn_app_exact _ _ _ Hiv), (skipn_app_exact _ _ _ Hiv) in H.
  rewrite (firstn_app_exact _ _ _ Hiv'), (skipn_app_exact _ _ _ Hiv').
  destruct (whole_blocks c) eqn:Ew; [|discriminate].
  unfold whole_blocks in Ew. apply andb_prop in Ew. destruct Ew as [_ Emod].
  apply Nat.eqb_eq in Emod.
  destruct (length c / BLOCK_SIZE - 1) as [|n] eqn:En; [sizes|].
  rewrite cbc_decrypt_loop_xor_iv
    by (try apply prepareKey_length; try assumption; sizes).
  cbn [fst snd].
  set (r := cbc_decrypt_loop (S n) (prepareKey key) iv c) in *.
  destruct (cbc_decrypt_loop_length aes_decrypt_block_length (S n) (prepareKey key)
              iv c (prepareKey_length key) Hiv) as [H1 _]; [sizes|].
  fold r in H1.
  destruct (unpadblock _) as [t|e]; cbn [bind] in *; [|discriminate].
  injection H as <-.
  assert (Hf : length (firstn BLOCK_SIZE (fst r)) = BLOCK_SIZE)
    by (rewrite length_firstn; sizes).
  change 16 with BLOCK_SIZE.
  rewrite firstn_app, skipn_app.
  replace (BLOCK_SIZE - length (fst r)) with 0 by sizes.
  rewrite firstn_0, skipn_O, app_nil_r. now rewrite <- app_assoc.
Qed.

End MoreLengths.


(** ** A reused IV *)

Section ReusedIV.

Context {aes : AES256}.

Hypothesis aes_block_length : forall key block,
  length key = KEY_SIZE -> length block = BLOCK_SIZE ->
  length (aes_encrypt_block key block) = BLOCK_SIZE.

Lemma staged_ciphertext_prefix (key iv m rest : bytes) :
  length key = KEY_SIZE -> length iv = BLOCK_SIZE ->
  let n := length m / BLOCK_SIZE in
  firstn (BLOCK_SIZE * n) (staged_ciphertext key iv (m ++ rest)) =
    fst (cbc_encrypt_loop n key iv m).
Proof.
  intros Hkey Hiv n. unfold staged_ciphertext. cbv zeta.
  set (n' := length (m ++ rest) / BLOCK_SIZE).
  assert (Hn : n' = n + (n' - n)).
  { unfold n', n. rewrite length_app. sizes. }
  rewrite Hn at 1. rewrite cbc_encrypt_loop_add. cbv zeta. cbn [fst].
  rewrite cbc_encrypt_loop_app with (n := n) (data := m) by (unfold n; sizes).
  destruct (cbc_encrypt_loop_length aes_block_length n key iv m Hkey Hiv) as [H1 _];
    [unfold n; sizes|].
  rewrite <- app_assoc. now apply firstn_app_exact.
Qed.

(** X7. With the same IV and the same password, the envelope of a message
    and the envelope of any extension of that message agree on the IV and
    on the ciphertext of the whole blocks of the message. *)
Theorem encrypt_reused_iv_prefix (iv P Q K : bytes) :
  length iv = 16 ->
  exists e1 e2,
    encrypt iv (DataBuffer P) K = Ok e1
    /\ encrypt iv (DataBuffer (P ++ Q)) K = Ok e2
    /\ firstn (16 + 16 * (length P / 16)) e1 = firstn (16 + 16 * (length P / 16)) e2.
Proof.
  intros Hiv.
  exists (envelope iv (DataBuffer P) K), (envelope iv (DataBuffer (P ++ Q)) K).
  split; [apply encrypt_staged; exact Hiv|].
  split; [apply encrypt_staged; exact Hiv|].
  unfold envelope. cbn [data_bytes].
  rewrite !firstn_app, Hiv.
  replace (16 + 16 * (length P / 16) - 16) with (BLOCK_SIZE * (length P / BLOCK_SIZE))
    by sizes.
  f_equal.
  pose proof (staged_ciphertext_prefix (prepareKey K) iv P Q
                (prepareKey_length K) Hiv) as HQ.
  pose proof (staged_ciphertext_prefix (prepareKey K) iv P []
                (prepareKey_length K) Hiv) as H0.
  rewrite app_nil_r in H0. cbv zeta in HQ, H0. now rewrite HQ, H0.
Qed.

End ReusedIV.

(** ** How [decryptAsync] reports a failure *)

(** X8. On fewer than 16 bytes [decryptAsync] throws the invalid-IV error
    instead of returning a promise; from 16 bytes on it returns a promise,
    settled with what [decrypt] returns or raises. *)
Theorem decryptAsync_delivery {aes : AES256} (encryptedData key : bytes) :
  (length encryptedData < 16 ->
     decryptAsync encryptedData key = Err ERR_CRYPTO_INVALID_IV)
  /\ (16 <= length encryptedData ->
        decryptAsync encryptedData key = Ok (settled (decrypt encryptedData key))).
Proof.
  split; intros Hlen.
  - unfold decryptAsync, createDecipheriv.
    rewrite createCipheriv_bad_iv; [reflexivity|].
    rewrite subarray_prefix, length_firstn. sizes.
  - pose proof (decryptAsync_decrypt encryptedData key) as H.
    unfold decryptAsync, createDecipheriv in *.
    rewrite createCipheriv_ok in *
      by (rewrite subarray_prefix, length_firstn; sizes).
    cbn [bind awaited] in *. now rewrite H.
Qed.

(** ** The empty reply to [askQuestion] *)

Lemma join_separators (sep : jsstring) (parts : list jsstring) :
  length sep * (length parts - 1) <= length (join sep parts).
Proof.
  induction parts as [|p parts IH]; [cbn; lia|].
  destruct parts as [|q parts]; [cbn; lia|].
  change (join sep (p :: q :: parts)) with (p ++ sep ++ join sep (q :: parts)).
  rewrite !length_app.
  replace (length (p :: q :: parts) - 1) with (S (length (q :: parts) - 1))
    by (cbn [length]; lia).
  rewrite Nat.mul_succ_r. lia.
Qed.

Lemma join_length (sep : jsstring) (parts : list jsstring) (y : jsstring) :
  In y parts -> length y + length sep * (length parts - 1) <= length (join sep parts).
Proof.
  induction parts as [|p parts IH]; intros Hin; [destruct Hin|].
  destruct parts as [|q parts].
  - destruct Hin as [<-|[]]. cbn. lia.
  - change (join sep (p :: q :: parts)) with (p ++ sep ++ join sep (q :: parts)).
    rewrite !length_app.
    replace (length (p :: q :: parts) - 1) with (S (length (q :: parts) - 1))
      by (cbn [length]; lia).
    rewrite Nat.mul_succ_r.
    destruct Hin as [<-|Hin].
    + pose proof (join_separators sep (q :: parts)). lia.
    + specialize (IH Hin). lia.
Qed.

(** X9. When lower-casing keeps the length of the tokens and of the tokens
    joined by ["/"], the empty reply is accepted exactly when there is one
    token: with two tokens or more, and so with the default tokens, it is
    declined, and with no token it is declined too. *)
Theorem askQuestion_empty_reply {locale : Locale} (prompt : jsstring)
    (yes_arg : option (list jsstring)) :
  let yes := accepted_tokens yes_arg in
  length (toLocaleLowerCase (join (js "/") yes)) = length (join (js "/") yes) ->
  (forall y, In y yes -> length (toLocaleLowerCase y) = length y) ->
  askQuestion prompt yes_arg [] = true <-> length yes = 1.
Proof.
  intros yes Hjoin Htokens. rewrite askQuestion_result. cbv zeta. cbn [read default].
  fold yes. split.
  - intros [y [Hin Heq]].
    pose proof (join_length (js "/") yes y Hin) as Hj.
    apply (f_equal (@length N)) in Heq. rewrite Hjoin, (Htokens y Hin) in Heq.
    change (length (js "/")) with 1 in Hj.
    destruct yes as [|a [|b yes']]; [destruct Hin|reflexivity|cbn [length] in *; lia].
  - intros Hone. destruct yes as [|a [|b yes']]; try discriminate.
    exists a. split; [now left|reflexivity].
Qed.


(** ** Hexadecimal text *)

Lemma from_hex_byte (b : byte) (rest : jsstring) :
  from_hex (hex_char (Byte.to_N b / 16) :: hex_char (Byte.to_N b mod 16) :: rest) =
    b :: from_hex rest.
Proof. destruct b; reflexivity. Qed.

Lemma from_hex_app (buf : bytes) (rest : jsstring) :
  from_hex (toString_hex buf ++ rest) = buf ++ from_hex rest.
Proof.
  induction buf as [|b buf IH]; [reflexivity|].
  unfold toString_hex in *. cbn [flat_map app].
  now rewrite from_hex_byte, IH.
Qed.

(** X10. Reading back the hexadecimal text of a buffer gives the buffer, also
    when one more character follows the text, such as the line end of a
    file: what [prompt-encrypt] prints or saves is read by
    [Buffer.from(_, "hex")] as the envelope that was encrypted. *)
Theorem from_hex_toString_hex (buf : bytes) :
  from_hex (toString_hex buf) = buf
  /\ (forall u, from_hex (toString_hex buf ++ [u]) = buf)
  /\ length (toString_hex buf) = 2 * length buf.
Proof.
  split; [|split].
  - rewrite <- (app_nil_r (toString_hex buf)), from_hex_app. apply app_nil_r.
  - intros u. rewrite from_hex_app. apply app_nil_r.
  - unfold toString_hex. induction buf as [|b buf IH]; [reflexivity|].
    cbn [flat_map app length]. rewrite IH. lia.
Qed.

(** ** The tests *)

Lemma bytes_eqb_refl (a : bytes) : bytes_eqb a a = true.
Proof. unfold bytes_eqb. destruct (list_eq_dec byte_eq_dec a a); congruence. Qed.

Section TestsPass.

Context {aes : AES256}.

Hypothesis aes_block_length : forall key block,
  length key = KEY_SIZE -> length block = BLOCK_SIZE ->
  length (aes_encrypt_block key block) = BLOCK_SIZE.

Hypothesis aes_decrypt_encrypt : forall key block,
  length key = KEY_SIZE -> length block = BLOCK_SIZE ->
  aes_decrypt_block key (aes_encrypt_block key block) = block.

(** X11. The tests of [test.ts] pass whatever bytes [randomBytes] returns:
    the 32 and 36 bytes drawn by [testUtilsPrepareKey] and the 16-byte IVs
    drawn by [encrypt] and [encryptAsync]. *)
Theorem testAll_passes (random32 random36 iv iv' : bytes) :
  length random32 = 32 -> length random36 = 36 ->
  length iv = 16 -> length iv' = 16 ->
  Test.testAll random32 random36 iv iv' = true.
Proof.
  intros H32 H36 Hiv Hiv'. unfold Test.testAll.
  apply andb_true_intro. split; [apply andb_true_intro; split|].
  - unfold Test.testUtilsPrepareKey, Test.deepStrictEqual. cbv zeta.
    assert (H3 : prepareKey random32 = random32).
    { rewrite prepareKey_long by (unfold KEY_SIZE; lia).
      unfold KEY_SIZE. rewrite <- H32. apply firstn_all. }
    assert (H4 : prepareKey (Buffer.subarray random36 0 32) = Buffer.subarray random36 0 32).
    { rewrite subarray_prefix.
      assert (Hl : length (firstn 32 random36) = 32) by (rewrite length_firstn; lia).
      rewrite prepareKey_long by (unfold KEY_SIZE; lia).
      unfold KEY_SIZE. rewrite <- Hl at 1. apply firstn_all. }
    rewrite H3, H4, !bytes_eqb_refl. reflexivity.
  - unfold Test.testUtilEncryptAndDecrypt, Test.deepStrictEqual.
    rewrite encrypt_staged by exact Hiv.
    rewrite (decrypt_staged aes_block_length aes_decrypt_encrypt) by (exact Hiv || reflexivity).
    apply bytes_eqb_refl.
  - unfold Test.testAsync, Test.deepStrictEqual.
    rewrite encryptAsync_encrypt, encrypt_staged by exact Hiv'. cbn [settled].
    rewrite decryptAsync_decrypt.
    rewrite (decrypt_staged aes_block_length aes_decrypt_encrypt) by (exact Hiv' || reflexivity).
    cbn [settled data_bytes]. now rewrite bytes_eqb_refl.
Qed.

End TestsPass.

(** ** The command [prompt-encrypt] *)

Lemma read_no_default (p line : jsstring) :
  read {| prompt := p; default := [] |} line = line.
Proof. now destruct line. Qed.

Section PromptEncryptProperties.

Context {aes : AES256} {locale : Locale}.

(** The password that the first loop of [main] accepts was typed twice in a
    row; it has 8 code units or more, or the reply to the question that
    follows was accepted by [askQuestion] with its default tokens. *)
Lemma password_loop_accepts (lines log : list jsstring) (p : jsstring)
    (rest : list jsstring) :
  PromptEncrypt.password_loop lines = (log, Finished p rest) ->
  exists before confirm,
    lines = before ++ p :: p :: confirm ++ rest
    /\ ((8 <= length p /\ confirm = [])
        \/ (length p < 8
            /\ exists reply, confirm = [reply]
                 /\ askQuestion (PromptEncrypt.confirm_prompt p) None reply = true)).
Proof.
  revert log. induction lines as [lines IH] using (induction_ltof1 _ (@length jsstring)).
  unfold ltof in IH. intros log H.
  destruct lines as [|l1 [|l2 tl]]; try discriminate.
  cbn [PromptEncrypt.password_loop] in H.
  unfold requestPassword in H. rewrite !read_no_default in H.
  destruct (jsstring_eqb l1 l2) eqn:Eeq; cbn [negb] in H.
  - apply jsstring_eqb_eq in Eeq. subst l2.
    destruct (length l1 <? 8) eqn:Elen.
    + apply Nat.ltb_lt in Elen.
      destruct tl as [|l3 tl']; [discriminate|].
      destruct (askQuestion _ None l3) eqn:Eask.
      * injection H as _ <- <-. exists [], [l3]. split; [reflexivity|].
        right. split; [exact Elen|]. exists l3. now split.
      * destruct (PromptEncrypt.password_loop tl') as [log' r] eqn:Erec.
        injection H as _ ->.
        destruct (IH tl' ltac:(cbn; lia) log' Erec) as [before [confirm [-> Hc]]].
        exists (l1 :: l1 :: l3 :: before), confirm. now split.
    + apply Nat.ltb_ge in Elen. injection H as _ <- <-.
      exists [], []. split; [reflexivity|]. left. now split.
  - destruct (PromptEncrypt.password_loop tl) as [log' r] eqn:Erec.
    injection H as _ ->.
    destruct (IH tl ltac:(cbn; lia) log' Erec) as [before [confirm [-> Hc]]].
    exists (l1 :: l2 :: before), confirm. now split.
Qed.

Lemma message_loop_accepts (lines log : list jsstring) (m : jsstring)
    (rest : list jsstring) :
  PromptEncrypt.message_loop lines = (log, Finished m rest) ->
  exists before, lines = before ++ m :: m :: rest.
Proof.
  revert log. induction lines as [lines IH] using (induction_ltof1 _ (@length jsstring)).
  unfold ltof in IH. intros log H.
  destruct lines as [|l1 [|l2 tl]]; try discriminate.
  cbn [PromptEncrypt.message_loop] in H.
  unfold requestPassword in H. rewrite !read_no_default in H.
  destruct (jsstring_eqb l1 l2) eqn:Eeq; cbn [negb] in H.
  - apply jsstring_eqb_eq in Eeq. subst l2. injection H as _ <- <-. now exists [].
  - destruct (PromptEncrypt.message_loop tl) as [log' r] eqn:Erec.
    injection H as _ ->.
    destruct (IH tl ltac:(cbn; lia) log' Erec) as [before ->].
    now exists (l1 :: l2 :: before).
Qed.

Hypothesis aes_block_length : forall key block,
  length key = KEY_SIZE -> length block = BLOCK_SIZE ->
  length (aes_encrypt_block key block) = BLOCK_SIZE.

Hypothesis aes_decrypt_encrypt : forall key block,
  length key = KEY_SIZE -> length block = BLOCK_SIZE ->
  aes_decrypt_block key (aes_encrypt_block key block) = block.

(** X12. With a 16-byte IV, [main] never ends with an exception of
    [encrypt].  When it gets past the question about saving, the password
    and then the message were each typed twice in a row, a password of fewer
    than 8 code units was confirmed, the hexadecimal text of the envelope
    was logged, and that text, read back as hexadecimal and decrypted with
    the UTF-8 bytes of the password, gives the UTF-8 bytes of the message. *)
Theorem main_encrypts_what_was_typed (iv : bytes) (lines log : list jsstring)
    (out : PromptEncrypt.outcome) :
  length iv = 16 ->
  PromptEncrypt.main iv lines = (log, out) ->
  out = PromptEncrypt.Blocked
  \/ exists encrypted rest p m before confirm between reply,
       (out = PromptEncrypt.Returned encrypted rest
        \/ out = PromptEncrypt.Saving encrypted rest)
       /\ lines = before ++ p :: p :: confirm ++ between ++ m :: m :: reply :: rest
       /\ ((8 <= length p /\ confirm = [])
           \/ (length p < 8
               /\ exists answer, confirm = [answer]
                    /\ askQuestion (PromptEncrypt.confirm_prompt p) None answer = true))
       /\ In (toString_hex encrypted) log
       /\ decrypt (from_hex (toString_hex encrypted)) (utf8_bytes p) = Ok (utf8_bytes m).
Proof.
  intros Hiv H. unfold PromptEncrypt.main in H.
  destruct (PromptEncrypt.password_loop lines) as [log1 [p rest1|]] eqn:E1;
    [|injection H as _ <-; now left].
  destruct (PromptEncrypt.message_loop rest1) as [log2 [m rest2|]] eqn:E2;
    [|injection H as _ <-; now left].
  rewrite encrypt_staged in H by exact Hiv.
  destruct rest2 as [|reply rest3]; [injection H as _ <-; now left|].
  right.
  apply password_loop_accepts in E1. destruct E1 as [before [confirm [-> Hconfirm]]].
  apply message_loop_accepts in E2. destruct E2 as [between ->].
  exists (envelope iv (DataString m) (utf8_bytes p)), rest3, p, m,
    before, confirm, between, reply.
  assert (Hlog : In (toString_hex (envelope iv (DataString m) (utf8_bytes p))) log
                 /\ (out = PromptEncrypt.Returned (envelope iv (DataString m) (utf8_bytes p)) rest3
                     \/ out = PromptEncrypt.Saving (envelope iv (DataString m) (utf8_bytes p)) rest3)).
  { fold (envelope iv (DataString m) (utf8_bytes p)) in H.
    destruct (askQuestion _ _ reply); cbn [negb] in H; injection H as <- <-;
      (split; [|(now left) || (now right)]);
      do 2 right; rewrite !in_app_iff; do 2 right;
      cbn [In]; right; right; left; reflexivity. }
  destruct Hlog as [Hin Hout].
  split; [exact Hout|]. split; [reflexivity|]. split; [exact Hconfirm|].
  split; [exact Hin|].
  rewrite <- (app_nil_r (toString_hex _)), from_hex_app, app_nil_r.
  now apply (decrypt_staged aes_block_length aes_decrypt_encrypt).
Qed.

End PromptEncryptProperties.


(** ** Strings through UTF-8 *)

(** X13. Encoding a string as UTF-8 and decoding the bytes gives the string
    with every unpaired surrogate replaced by U+FFFD; so a string whose
    surrogates are paired comes back as it is, and a string with an unpaired
    surrogate does not. *)
Theorem toString_utf8_utf8_bytes (s : jsstring) :
  code_units s ->
  toString_utf8 (utf8_bytes s) = toWellFormed s
  /\ (toString_utf8 (utf8_bytes s) = s <-> well_formed s = true).
Proof.
  intros Hs. unfold toString_utf8. rewrite utf8_decode_utf8_bytes by exact Hs.
  split; [reflexivity|]. split; [|apply toWellFormed_well_formed].
  unfold code_units in Hs. revert Hs.
  induction s as [s IH] using (induction_ltof1 _ (@length N)).
  unfold ltof in IH. intros Hs. destruct s as [|u rest]; [reflexivity|].
  inversion Hs as [|? ? Hu Hrest]; subst.
  cbn [well_formed toWellFormed].
  destruct (is_high_surrogate u) eqn:Ehigh.
  - destruct rest as [|v rest'].
    + intros [= Hreplaced]. subst u. discriminate Ehigh.
    + inversion Hrest as [|? ? Hv Hrest']; subst.
      destruct (is_low_surrogate v) eqn:Elow.
      * intros [= H]. cbn [andb]. now apply (IH rest' ltac:(cbn; lia)).
      * intros [= Hreplaced _]. subst u. discriminate Ehigh.
  - destruct (is_low_surrogate u) eqn:Elow.
    + intros [= Hreplaced _]. subst u. discriminate Elow.
    + intros [= H]. cbn [negb andb].
      apply N.ltb_lt in Hu. rewrite Hu. cbn [andb].
      now apply (IH rest ltac:(cbn; lia)).
Qed.


(** ** The examples *)

Section Example2Properties.

Context {aes : AES256}.

Hypothesis aes_block_length : forall key block,
  length key = KEY_SIZE -> length block = BLOCK_SIZE ->
  length (aes_encrypt_block key block) = BLOCK_SIZE.

Hypothesis aes_decrypt_encrypt : forall key block,
  length key = KEY_SIZE -> length block = BLOCK_SIZE ->
  aes_decrypt_block key (aes_encrypt_block key block) = block.

(** X14. The body of example 2, for any message and password in place of
    its two constants and any 16-byte IV, raises no exception of the
    library; its assertion passes when the surrogates of the message are
    paired, and fails otherwise, the decrypted string then having U+FFFD in
    place of each unpaired surrogate. *)
Theorem example2_body (secretMessage password : jsstring) (iv : bytes) :
  code_units secretMessage -> length iv = 16 ->
  Example2.body secretMessage password iv =
    if jsstring_eqb (toWellFormed secretMessage) secretMessage then
      Passed [js "Encrypted data: "
                ++ toString_hex (envelope iv (DataBuffer (utf8_bytes secretMessage))
                                   (utf8_bytes password));
              js "Decrypted message: " ++ secretMessage]
    else AssertionFailed.
Proof.
  intros Hunits Hiv. unfold Example2.body.
  rewrite encrypt_staged by exact Hiv.
  rewrite (decrypt_staged aes_block_length aes_decrypt_encrypt) by (exact Hiv || reflexivity).
  cbn [data_bytes].
  unfold toString_utf8. now rewrite utf8_decode_utf8_bytes by exact Hunits.
Qed.

End Example2Properties.

Lemma decrypt_prepared_key {aes : AES256} (encryptedData key key' : bytes) :
  prepareKey key = prepareKey key' -> decrypt encryptedData key = decrypt encryptedData key'.
Proof. intros H. unfold decrypt. now rewrite H. Qed.

(** X15. Example 3 passes its assertion and logs the secret message when the
    password typed is ["weak_password"], and for any other reply whose UTF-8
    bytes have the same prepared key. *)
Theorem example3_main (line : jsstring) :
  prepareKey (utf8_bytes line) = prepareKey (utf8_bytes (js "weak_password")) ->
  @Example3.main aes256 line =
    Passed [js "The secret message is: This is a secret message!" ++ [10%N]].
Proof.
  intros Hkey. unfold Example3.main.
  unfold requestPassword. rewrite read_no_default.
  rewrite decryptAsync_decrypt.
  rewrite (decrypt_prepared_key _ _ _ Hkey).
  vm_compute. reflexivity.
Qed.


(** ** The further properties on concrete inputs *)

Lemma prepareKey_injective_same_length_witness :
  length test_key = length (ascii_bytes "This is a weak key") /\ length test_key <= 32
  /\ prepareKey test_key = prepareKey (ascii_bytes "This is a weak key")
  /\ test_key = ascii_bytes "This is a weak key".
Proof.
  split; [reflexivity|]. split; [cbn; lia|]. split; [reflexivity|].
  apply (prepareKey_injective_same_length test_key (ascii_bytes "This is a weak key"));
    [reflexivity|cbn; lia|reflexivity].
Defined.

Lemma decrypt_error_kinds_witness :
  @decrypt aes256 zero_block_envelope test_key = Err ERR_OSSL_BAD_DECRYPT
  /\ ((length zero_block_envelope < 16 /\ ERR_OSSL_BAD_DECRYPT = ERR_CRYPTO_INVALID_IV)
      \/ (16 <= length zero_block_envelope
          /\ whole_blocks (skipn 16 zero_block_envelope) = false
          /\ ERR_OSSL_BAD_DECRYPT = ERR_OSSL_WRONG_FINAL_BLOCK_LENGTH)
      \/ (16 <= length zero_block_envelope
          /\ whole_blocks (skipn 16 zero_block_envelope) = true
          /\ ERR_OSSL_BAD_DECRYPT = ERR_OSSL_BAD_DECRYPT)).
Proof.
  split; [vm_compute; reflexivity|].
  apply (@decrypt_error_kinds aes256 zero_block_envelope test_key). vm_compute. reflexivity.
Defined.

Lemma decrypt_success_lengths_witness :
  @decrypt aes256 (test_iv ++ two_block_ciphertext) test_key
    = Ok (ascii_bytes "Hello, Francis!!")
  /\ 32 <= length (test_iv ++ two_block_ciphertext)
  /\ length (test_iv ++ two_block_ciphertext) mod 16 = 0
  /\ length (ascii_bytes "Hello, Francis!!") + 17 <= length (test_iv ++ two_block_ciphertext)
  /\ length (test_iv ++ two_block_ciphertext) <= length (ascii_bytes "Hello, Francis!!") + 32.
Proof.
  split; [vm_compute; reflexivity|].
  apply (@decrypt_success_lengths aes256 aes256_decrypt_block_length
           (test_iv ++ two_block_ciphertext) test_key).
  vm_compute. reflexivity.
Defined.

Lemma decrypt_modified_iv_witness :
  length test_iv = 16 /\ length (repeat x20 16) = 16 /\ 32 <= length two_block_ciphertext
  /\ @decrypt aes256 (test_iv ++ two_block_ciphertext) test_key
       = Ok (ascii_bytes "Hello, Francis!!")
  /\ @decrypt aes256 (xor_bytes test_iv (repeat x20 16) ++ two_block_ciphertext) test_key
       = Ok (xor_bytes (firstn 16 (ascii_bytes "Hello, Francis!!")) (repeat x20 16)
               ++ skipn 16 (ascii_bytes "Hello, Francis!!")).
Proof.
  split; [reflexivity|]. split; [reflexivity|]. split; [vm_compute; lia|].
  split; [vm_compute; reflexivity|].
  apply (@decrypt_modified_iv aes256 aes256_decrypt_block_length);
    [reflexivity|reflexivity|vm_compute; lia|vm_compute; reflexivity].
Defined.

Lemma encrypt_reused_iv_prefix_witness :
  length test_iv = 16
  /\ exists e1 e2,
       @encrypt aes256 test_iv (DataBuffer (ascii_bytes "Hello, Francis!!")) test_key = Ok e1
       /\ @encrypt aes256 test_iv
            (DataBuffer (ascii_bytes "Hello, Francis!!" ++ ascii_bytes " and more"))
            test_key = Ok e2
       /\ firstn (16 + 16 * (length (ascii_bytes "Hello, Francis!!") / 16)) e1
          = firstn (16 + 16 * (length (ascii_bytes "Hello, Francis!!") / 16)) e2.
Proof.
  split; [reflexivity|].
  apply (@encrypt_reused_iv_prefix aes256 aes256_block_length). reflexivity.
Defined.

Lemma askQuestion_empty_reply_witness :
  length (@toLocaleLowerCase ascii_locale (join (js "/") default_yes))
    = length (join (js "/") default_yes)
  /\ (forall y, In y default_yes -> length (@toLocaleLowerCase ascii_locale y) = length y)
  /\ (@askQuestion ascii_locale (js "Continue?") None [] = true
      <-> length (accepted_tokens None) = 1).
Proof.
  split; [reflexivity|].
  split; [intros y _; apply length_map|].
  apply (@askQuestion_empty_reply ascii_locale (js "Continue?") None);
    [reflexivity|intros y _; apply length_map].
Defined.

Lemma testAll_passes_witness :
  length (repeat x07 32) = 32 /\ length (repeat x09 36) = 36
  /\ length test_iv = 16 /\ length test_iv' = 16
  /\ @Test.testAll aes256 (repeat x07 32) (repeat x09 36) test_iv test_iv' = true.
Proof.
  split; [reflexivity|]. split; [reflexivity|]. split; [reflexivity|]. split; [reflexivity|].
  apply (@testAll_passes aes256 aes256_block_length aes256_decrypt_encrypt); reflexivity.
Defined.

Lemma main_encrypts_what_was_typed_witness :
  length test_iv = 16
  /\ @PromptEncrypt.main aes256 ascii_locale test_iv session
       = (fst (@PromptEncrypt.main aes256 ascii_locale test_iv session),
          PromptEncrypt.Returned
            (hex "000102030405060708090a0b0c0d0e0ffcd80e0932e55abb4d8df2fcc0274eb3") [])
  /\ (PromptEncrypt.Returned
        (hex "000102030405060708090a0b0c0d0e0ffcd80e0932e55abb4d8df2fcc0274eb3") []
      = PromptEncrypt.Blocked
      \/ exists encrypted rest p m before confirm between reply,
           (PromptEncrypt.Returned
              (hex "000102030405060708090a0b0c0d0e0ffcd80e0932e55abb4d8df2fcc0274eb3") []
            = PromptEncrypt.Returned encrypted rest
            \/ PromptEncrypt.Returned
                 (hex "000102030405060708090a0b0c0d0e0ffcd80e0932e55abb4d8df2fcc0274eb3") []
               = PromptEncrypt.Saving encrypted rest)
           /\ session = before ++ p :: p :: confirm ++ between ++ m :: m :: reply :: rest
           /\ ((8 <= length p /\ confirm = [])
               \/ (length p < 8
                   /\ exists answer, confirm = [answer]
                        /\ @askQuestion ascii_locale (PromptEncrypt.confirm_prompt p)
                             None answer = true))
           /\ In (toString_hex encrypted)
                (fst (@PromptEncrypt.main aes256 ascii_locale test_iv session))
           /\ @decrypt aes256 (from_hex (toString_hex encrypted)) (utf8_bytes p)
              = Ok (utf8_bytes m)).
Proof.
  split; [reflexivity|]. split; [vm_compute; reflexivity|].
  apply (@main_encrypts_what_was_typed aes256 ascii_locale
           aes256_block_length aes256_decrypt_encrypt test_iv session);
    [reflexivity|vm_compute; reflexivity].
Defined.

Lemma code_units_accented_string : code_units accented_string.
Proof. repeat constructor. Qed.

Lemma toString_utf8_utf8_bytes_witness :
  code_units accented_string
  /\ toString_utf8 (utf8_bytes accented_string) = toWellFormed accented_string
  /\ (toString_utf8 (utf8_bytes accented_string) = accented_string
      <-> well_formed accented_string = true).
Proof.
  split; [exact code_units_accented_string|].
  apply (toString_utf8_utf8_bytes accented_string). exact code_units_accented_string.
Defined.

Lemma example2_body_witness :
  code_units accented_string /\ length test_iv = 16
  /\ @Example2.body aes256 accented_string (js "strong_password") test_iv =
       if jsstring_eqb (toWellFormed accented_string) accented_string then
         Passed [js "Encrypted data: "
                   ++ toString_hex
                        (@envelope aes256 test_iv (DataBuffer (utf8_bytes accented_string))
                           (utf8_bytes (js "strong_password")));
                 js "Decrypted message: " ++ accented_string]
       else AssertionFailed.
Proof.
  split; [exact code_units_accented_string|]. split; [reflexivity|].
  apply (@example2_body aes256 aes256_block_length aes256_decrypt_encrypt);
    [exact code_units_accented_string|reflexivity].
Defined.

Lemma example3_main_witness :
  prepareKey (utf8_bytes (js "weak_password")) = prepareKey (utf8_bytes (js "weak_password"))
  /\ @Example3.main aes256 (js "weak_password") =
       Passed [js "The secret message is: This is a secret message!" ++ [10%N]].
Proof.
  split; [reflexivity|]. apply (example3_main (js "weak_password")). reflexivity.
Defined.

(** An unpaired surrogate does not survive example 2. *)
Example example2_unpaired_surrogate :
  @Example2.body aes256 [0xD800%N] (js "strong_password") test_iv = AssertionFailed.
Proof. vm_compute. reflexivity. Qed.

(** A line end after the text of example 3 does not change what is read. *)
Example from_hex_line_end :
  from_hex (Example3.HEX_ENCRYPTED_MESSAGE ++ [10%N]) = from_hex Example3.HEX_ENCRYPTED_MESSAGE.
Proof. vm_compute. reflexivity. Qed.
